(** * World of Degens: layout worker and viewport controller

    A shallow embedding of the character-layout worker
    (the [mulberry32] generator and the [onmessage] handler) and of the
    viewport handlers of [CharacterPlane] (wheel zoom, pinch zoom, culling,
    search), with the properties the specification states about them;
    then of the code around them: the drawing of a character (traits,
    wrapped speech text), the loading of the characters, the holders API
    and the style helpers of the SVG components, with properties read off
    that code.

    Modelling conventions.
    - A JavaScript Number that holds an integer used by the bit operations
      of the generator is a [Z]; [ToInt32] and [ToUint32] are written out.
      The additions of the generator are exact on [Z]; on doubles they are
      exact as long as the running seed stays below 2^53.
    - Every other Number is a real ([R]): rounding, NaN and the infinities
      are not modelled.  A quotient whose divisor is not a literal goes
      through [js_div], which reports a zero divisor as [None].
    - A string is a [string], a sequence of code units below 256 (the
      identities are wallet addresses, in ASCII); [charCodeAt] is the code
      of the character.  No statement relies on the range of the codes:
      where a bound on them is needed it is a hypothesis.
    - Handlers are functions from the state they read to the state they
      write and the effects they request. *)

From Stdlib Require Import ZArith Reals Lra Lia String Ascii List Sorted.
From stdpp Require Import base option list strings gmap.

Local Open Scope Z_scope.

(** ** 32-bit conversions of ECMAScript *)

Definition two32 : Z := 4294967296.

(** [ToUint32]: the value modulo 2^32. *)
Definition ToUint32 (z : Z) : Z := z mod two32.

(** [ToInt32]: the value modulo 2^32, read as a signed 32-bit integer. *)
Definition ToInt32 (z : Z) : Z :=
  let u := z mod two32 in
  if u <? 2147483648 then u else u - two32.

(** [a ^ b] *)
Definition js_xor (a b : Z) : Z := Z.lxor (ToInt32 a) (ToInt32 b).

(** [a | b] *)
Definition js_or (a b : Z) : Z := Z.lor (ToInt32 a) (ToInt32 b).

(** [a >>> n] for a literal shift count below 32 *)
Definition js_ushr (a n : Z) : Z := Z.shiftr (ToUint32 a) n.

(** [Math.imul(a, b)] *)
Definition Math_imul (a b : Z) : Z := ToInt32 (ToInt32 a * ToInt32 b).

(** ** The seeded generator *)

(** The argument of [mulberry32]: a number or a string. *)
Inductive seed_value : Type :=
  | SeedNumber (n : Z)
  | SeedString (s : string).

Definition charCodeAt0 (c : ascii) : Z := Z.of_N (N_of_ascii c).

(** [convertStringToNumber]: a string is folded, left to right from 0, by
    adding the character codes; a number is returned as it is. *)
Definition convertStringToNumber (seed : seed_value) : Z :=
  match seed with
  | SeedString s =>
      fold_left (fun acc char => acc + charCodeAt0 char)
                (list_ascii_of_string s) 0
  | SeedNumber n => n
  end.

(** The 32-bit word the closure computes from the updated seed [t0]
    (lines 2 to 4 of the closure, before the division). *)
Definition mulberry32_word (t0 : Z) : Z :=
  let t := Math_imul (js_xor t0 (js_ushr t0 15)) (js_or t0 1) in
  let t := js_xor t (t + Math_imul (js_xor t (js_ushr t 7)) (js_or t 61)) in
  js_ushr (js_xor t (js_ushr t 14)) 0.

(** One call of the closure returned by [mulberry32]: from the captured
    [seed] to the returned number and the new value of [seed]. *)
Definition mulberry32_call (seed : Z) : R * Z :=
  let seed := seed + 0x6D2B79F5 in
  ((IZR (mulberry32_word seed) / 4294967296)%R, seed).

(** [mulberry32(seed)]: the initial captured state of the closure. *)
Definition mulberry32 (seed : seed_value) : Z := convertStringToNumber seed.

(** The first [k] numbers returned by a generator whose captured seed is
    [seed]. *)
Fixpoint draws (k : nat) (seed : Z) : list R :=
  match k with
  | O => []
  | S k' => let '(r, seed') := mulberry32_call seed in r :: draws k' seed'
  end.

(** The first and the second number a fresh generator returns. *)
Definition draw1 (seed : Z) : R := fst (mulberry32_call seed).
Definition draw2 (seed : Z) : R :=
  fst (mulberry32_call (snd (mulberry32_call seed))).

(** *** The generator as the specification words it *)

Module SpecPRNG.

(** The [next()] of the specification, on unsigned 32-bit words: the
    second mix step reads [state]. *)
Definition next_word (state : Z) : Z :=
  let t := ((Z.lxor state (Z.shiftr state 15)) * (Z.lor state 1)) mod two32 in
  let t := Z.lxor t ((t + ((Z.lxor t (Z.shiftr state 7)) * (Z.lor state 61))
                            mod two32) mod two32) in
  (Z.lxor t (Z.shiftr t 14)) mod two32.

Definition next (state : Z) : R * Z :=
  let state := (state + 0x6D2B79F5) mod two32 in
  ((IZR (next_word state) / 4294967296)%R, state).

(** The same, with the second mix step reading [t], as the code does. *)
Definition next_word_t (state : Z) : Z :=
  let t := ((Z.lxor state (Z.shiftr state 15)) * (Z.lor state 1)) mod two32 in
  let t := Z.lxor t ((t + ((Z.lxor t (Z.shiftr t 7)) * (Z.lor t 61))
                            mod two32) mod two32) in
  (Z.lxor t (Z.shiftr t 14)) mod two32.

Definition next_t (state : Z) : R * Z :=
  let state := (state + 0x6D2B79F5) mod two32 in
  ((IZR (next_word_t state) / 4294967296)%R, state).

(** The first [k] numbers of a generator with step [step]. *)
Fixpoint draws_with (step : Z -> R * Z) (k : nat) (state : Z) : list R :=
  match k with
  | O => []
  | S k' => let '(r, state') := step state in r :: draws_with step k' state'
  end.

(** Folding a string seed: the sum of its character codes. *)
Fixpoint sum_codes (s : string) : Z :=
  match s with
  | EmptyString => 0
  | String c s' => charCodeAt0 c + sum_codes s'
  end.

End SpecPRNG.

(** ** Numbers of the layout and of the viewport *)

Local Open Scope R_scope.

(** [a / b] with a divisor that is not a literal.  A zero divisor (where
    JavaScript yields NaN or an infinity, which are not reals) is [None]. *)
Definition js_div (a b : R) : option R :=
  if Req_dec_T b 0 then None else Some (a / b).

(** [Math.sign] *)
Definition Math_sign (v : R) : R :=
  if Rlt_dec 0 v then 1 else if Rlt_dec v 0 then -1 else 0.

(** [a >= b] and [a <= b] as the booleans they evaluate to. *)
Definition js_ge (a b : R) : bool := if Rge_dec a b then true else false.
Definition js_le (a b : R) : bool := if Rle_dec a b then true else false.

(** ** The layout worker (characterGenerator) *)

Module Worker.

(** An element of the request: [{ holderID, size }]. *)
Record Holder : Type := {
  holderID : string;
  size : R
}.

Record BoundingBox : Type := {
  left : R;
  right : R;
  top : R;
  bottom : R;
  width : R;
  height : R
}.

(** An element of [positions]. *)
Record CharacterPosition : Type := {
  x : R;
  y : R;
  sizeParameter : R;
  paramSeed : Z;
  walletAddress : string;
  boundingBox : BoundingBox
}.

(** The message handed to [self.postMessage]. *)
Record Response : Type := {
  positions : list CharacterPosition;
  isComplete : bool
}.

(** [const maxRadius = Math.sqrt(data.length) * 500] *)
Definition maxRadius (length : nat) : R := sqrt (INR length) * 500.

(** [const goldenAngle = Math.PI * (3 - Math.sqrt(5))] *)
Definition goldenAngle : R := PI * (3 - sqrt 5).

(** [const sizeScale = 1 + (size * 2)] *)
Definition sizeScale (size : R) : R := 1 + (size * 2).

(** [let radius = maxRadius * Math.sqrt(index / data.length) * sizeScale]:
    the radius before the perturbation is added. *)
Definition baseRadius (length index : nat) (size : R) : option R :=
  q ← js_div (INR index) (INR length);
  Some (maxRadius length * sqrt q * sizeScale size).

(** The final [angle] and [radius] of the callback, after
    [angle += anglePerturbation] and [radius += radiusPerturbation];
    [rand] is the captured seed of the generator, threaded through its
    two calls. *)
Definition polar (length index : nat) (item : Holder) : option (R * R) :=
  let rand := mulberry32 (SeedString (holderID item)) in
  let angle := INR index * goldenAngle in
  radius ← baseRadius length index (size item);
  let '(r, rand) := mulberry32_call rand in
  let anglePerturbation := (r - 0.5) * 0.1 in
  let '(r, rand) := mulberry32_call rand in
  d ← js_div (maxRadius length * 0.9) (INR length);
  let radiusPerturbation := (r - 0.5) * d * 2 * sizeScale (size item) in
  let angle := angle + anglePerturbation in
  let radius := radius + radiusPerturbation in
  Some (angle, radius).

(** The callback of [data.map]; [length] is [data.length]. *)
Definition placeEntity (length index : nat) (item : Holder)
  : option CharacterPosition :=
  '(angle, radius) ← polar length index item;
  let x := radius * cos angle in
  let y := radius * sin angle in
  let baseSize := 600 in
  let scaledWidth := baseSize * size item in
  let scaledHeight := baseSize * size item in
  Some {| x := x;
          y := y;
          sizeParameter := size item;
          paramSeed := convertStringToNumber (SeedString (holderID item));
          walletAddress := holderID item;
          boundingBox := {| left := x - scaledWidth / 2;
                            right := x + scaledWidth / 2;
                            top := y - scaledHeight / 2;
                            bottom := y + scaledHeight / 2;
                            width := scaledWidth;
                            height := scaledHeight |} |}.

(** The record the callback returns, written out from the final angle
    and radius (used to state what [placeEntity] computes). *)
Definition placed (item : Holder) (angle radius : R) : CharacterPosition :=
  {| x := radius * cos angle;
     y := radius * sin angle;
     sizeParameter := size item;
     paramSeed := convertStringToNumber (SeedString (holderID item));
     walletAddress := holderID item;
     boundingBox :=
       {| left := radius * cos angle - 600 * size item / 2;
          right := radius * cos angle + 600 * size item / 2;
          top := radius * sin angle - 600 * size item / 2;
          bottom := radius * sin angle + 600 * size item / 2;
          width := 600 * size item;
          height := 600 * size item |} |}.

(** [Array.prototype.map] with a callback [(item, index) => ...] that may
    meet a zero divisor: elements are visited in order, from [index]. *)
Fixpoint map_from {A B : Type} (f : nat -> A -> option B)
    (index : nat) (l : list A) : option (list B) :=
  match l with
  | [] => Some []
  | item :: rest =>
      b ← f index item;
      bs ← map_from f (S index) rest;
      Some (b :: bs)
  end.

(** [self.onmessage]: from the [data] of the request to the messages
    posted, in order. *)
Definition onmessage (data : list Holder) : option (list Response) :=
  positions ← map_from (placeEntity (length data)) 0%nat data;
  Some [ {| positions := positions; isComplete := true |} ].

(** The scenario of the specification:
    [[{id:"A", magnitude:0}, {id:"B", magnitude:1}]]. *)
Definition holderA : Holder := {| holderID := "A"; size := 0 |}.
Definition holderB : Holder := {| holderID := "B"; size := 1 |}.
Definition scenario : list Holder := [holderA; holderB].

End Worker.

(** ** The character plane (viewport, culling, search) *)

Module Plane.

(** A pair of constants, one per device class. *)
Record PerDevice : Type := {
  desktop : R;
  mobile : R
}.

Definition ZOOM_SPEED : PerDevice := {| desktop := 0.14; mobile := 2 |}.
Definition PAN_SPEED : PerDevice := {| desktop := 1.5; mobile := 3.5 |}.
Definition CULLING_MARGIN : PerDevice := {| desktop := 500; mobile := 800 |}.
Definition INITIAL_ZOOM : PerDevice := {| desktop := 0.2; mobile := 0.4 |}.

Record Viewport : Type := {
  width : R;
  height : R;
  centerX : R;
  centerY : R
}.

Definition FIXED_VIEWPORT : Viewport :=
  {| width := 1920; height := 1080; centerX := 1920 / 2; centerY := 1080 / 2 |}.

(** The [viewBox] state: offset and scale of the view. *)
Record ViewBox : Type := {
  x : R;
  y : R;
  scale : R
}.

(** The object held by [panStateRef]. *)
Record PanState : Type := {
  isPanning : bool;
  startX : R;
  startY : R;
  startViewBoxX : R;
  startViewBoxY : R
}.

(** The state of the component that the handlers read and write;
    [None] in a ref is [null]. *)
Record State : Type := {
  viewBox : ViewBox;
  characterPositions : list Worker.CharacterPosition;
  searchInput : string;
  panStateRef : option PanState;
  lastTouchDistance : option R
}.

Definition initialViewBox (isMobile : bool) : ViewBox :=
  {| x := 0; y := 0;
     scale := if isMobile then mobile INITIAL_ZOOM else desktop INITIAL_ZOOM |}.

(** The state the component starts in: the initial values of its
    [useState] and [useRef] calls. *)
Definition initialState (isMobile : bool) : State :=
  {| viewBox := initialViewBox isMobile;
     characterPositions := [];
     searchInput := "";
     panStateRef := None;
     lastTouchDistance := None |}.

Definition setViewBox (newViewBox : ViewBox) (st : State) : State :=
  {| viewBox := newViewBox;
     characterPositions := characterPositions st;
     searchInput := searchInput st;
     panStateRef := panStateRef st;
     lastTouchDistance := lastTouchDistance st |}.

Definition setPanStateRef (p : option PanState) (st : State) : State :=
  {| viewBox := viewBox st;
     characterPositions := characterPositions st;
     searchInput := searchInput st;
     panStateRef := p;
     lastTouchDistance := lastTouchDistance st |}.

Definition setLastTouchDistance (d : option R) (st : State) : State :=
  {| viewBox := viewBox st;
     characterPositions := characterPositions st;
     searchInput := searchInput st;
     panStateRef := panStateRef st;
     lastTouchDistance := d |}.

(** What a handler asks of the environment. *)
Inductive Effect : Type :=
  | Alert (message : string)
  | Animate (start target : ViewBox).

(** The screen position of the plane point [(x, y)]: [scaledX] and
    [scaledY] of [isCharacterVisible], which is also where the rendered
    group [translate(centerX + viewBox.x, centerY + viewBox.y)
    scale(viewBox.scale)] draws the point. *)
Definition screenPosition (viewBox : ViewBox) (x y : R) : R * R :=
  let screenX := centerX FIXED_VIEWPORT + Plane.x viewBox in
  let screenY := centerY FIXED_VIEWPORT + Plane.y viewBox in
  let scaledX := x * scale viewBox + screenX in
  let scaledY := y * scale viewBox + screenY in
  (scaledX, scaledY).

Definition isCharacterVisible (isMobile : bool) (viewBox : ViewBox)
    (x y : R) : bool :=
  let '(scaledX, scaledY) := screenPosition viewBox x y in
  let margin :=
    if isMobile then mobile CULLING_MARGIN else desktop CULLING_MARGIN in
  js_ge scaledX (- margin) &&
  js_le scaledX (width FIXED_VIEWPORT + margin) &&
  js_ge scaledY (- margin) &&
  js_le scaledY (height FIXED_VIEWPORT + margin).

Definition visibleCharacters (isMobile : bool) (st : State)
  : list Worker.CharacterPosition :=
  filter (fun char =>
            isCharacterVisible isMobile (viewBox st)
              (Worker.x char) (Worker.y char) = true)
         (characterPositions st).

(** [characterIndex]: a Map from [walletAddress] to the character, filled
    by [forEach] in the order of the list (a later entry replaces an
    earlier one with the same key). *)
Definition characterIndex (characterPositions : list Worker.CharacterPosition)
  : gmap string Worker.CharacterPosition :=
  fold_left (fun index char => <[Worker.walletAddress char := char]> index)
            characterPositions ∅.

(** The frame callback [animate] of [handleSearch], as the view box it
    sets when [elapsed = currentTime - startTime]. *)
Definition animate (start target : ViewBox) (elapsed : R) : ViewBox :=
  let duration := 1000 in
  let progress := Rmin (elapsed / duration) 1 in
  let easeProgress := 1 - (1 - progress) ^ 3 in
  {| x := x start + (x target - x start) * easeProgress;
     y := y start + (y target - y start) * easeProgress;
     scale := scale start + (scale target - scale start) * easeProgress |}.

Definition handleSearch (st : State) : State * list Effect :=
  match characterIndex (characterPositions st) !! searchInput st with
  | Some character =>
      let start := viewBox st in
      let target := {| x := - Worker.x character - 100;
                       y := - Worker.y character - 50;
                       scale := 1 |} in
      (st, [Animate start target])
  | None => (st, [Alert "Character not found"])
  end.

(** The updater both zoom handlers pass to [setViewBox]: [prev] is the
    current view box, [(pointX, pointY)] the screen point that is kept in
    place ([e.clientX, e.clientY] for the wheel, the pinch centre for a
    pinch). *)
Definition zoomUpdater (scaleFactor pointX pointY : R) (prev : ViewBox)
  : option ViewBox :=
  let newScale := scale prev * scaleFactor in
  let mouseX := pointX - centerX FIXED_VIEWPORT in
  let mouseY := pointY - centerY FIXED_VIEWPORT in
  worldX ← js_div (mouseX - x prev) (scale prev);
  worldY ← js_div (mouseY - y prev) (scale prev);
  Some {| scale := newScale;
          x := x prev - worldX * (scaleFactor - 1) * scale prev;
          y := y prev - worldY * (scaleFactor - 1) * scale prev |}.

Record WheelEvent : Type := {
  deltaY : R;
  wheelX : R;
  wheelY : R
}.

(** [handleWheel]; [wheelX] and [wheelY] are [e.clientX] and
    [e.clientY]. *)
Definition handleWheel (isMobile : bool) (e : WheelEvent) (st : State)
  : option State :=
  let speed := if isMobile then mobile ZOOM_SPEED else desktop ZOOM_SPEED in
  let scaleFactor := 1 - Math_sign (deltaY e) * speed in
  newViewBox ← zoomUpdater scaleFactor (wheelX e) (wheelY e) (viewBox st);
  Some (setViewBox newViewBox st).

(** A pointer or touch position. *)
Record Point : Type := {
  clientX : R;
  clientY : R
}.

(** [handleMouseDown]; [button] is [e.button]. *)
Definition handleMouseDown (button : Z) (e : Point) (st : State) : State :=
  if (button =? 0)%Z then
    setPanStateRef
      (Some {| isPanning := true;
               startX := clientX e;
               startY := clientY e;
               startViewBoxX := x (viewBox st);
               startViewBoxY := y (viewBox st) |}) st
  else st.

Definition handleMouseUp (st : State) : State :=
  match panStateRef st with
  | Some p =>
      setPanStateRef
        (Some {| isPanning := false;
                 startX := startX p;
                 startY := startY p;
                 startViewBoxX := startViewBoxX p;
                 startViewBoxY := startViewBoxY p |}) st
  | None => st
  end.

(** [handlePointerMove]; the update it requests for the next frame is
    applied at once. *)
Definition handlePointerMove (isMobile : bool) (e : Point) (st : State)
  : State :=
  match panStateRef st with
  | Some p =>
      if isPanning p then
        let speed := if isMobile then mobile PAN_SPEED else desktop PAN_SPEED in
        let dx := (clientX e - startX p) * speed in
        let dy := (clientY e - startY p) * speed in
        setViewBox {| x := startViewBoxX p + dx;
                      y := startViewBoxY p + dy;
                      scale := scale (viewBox st) |} st
      else st
  | None => st
  end.

(** [handleTouchStart]; [touches] is [e.touches]. *)
Definition handleTouchStart (touches : list Point) (st : State) : State :=
  match touches with
  | [t0; t1] =>
      let dx := clientX t0 - clientX t1 in
      let dy := clientY t0 - clientY t1 in
      setLastTouchDistance (Some (sqrt (dx * dx + dy * dy))) st
  | [t0] => handleMouseDown 0 t0 st
  | _ => st
  end.

(** [handleTouchMove].  [if (lastTouchDistance.current)] holds when the
    ref is a number other than 0. *)
Definition handleTouchMove (isMobile : bool) (touches : list Point)
    (st : State) : option State :=
  match touches with
  | [t0; t1] =>
      let dx := clientX t0 - clientX t1 in
      let dy := clientY t0 - clientY t1 in
      let distance := sqrt (dx * dx + dy * dy) in
      st ← match lastTouchDistance st with
           | Some last =>
               if Req_dec_T last 0 then Some st
               else
                 scale ← js_div distance last;
                 let zoomChange := (scale - 1) * mobile ZOOM_SPEED in
                 let scaleFactor := 1 + zoomChange in
                 let centerX := (clientX t0 + clientX t1) / 2 in
                 let centerY := (clientY t0 + clientY t1) / 2 in
                 newViewBox ← zoomUpdater scaleFactor centerX centerY
                                (viewBox st);
                 Some (setViewBox newViewBox st)
           | None => Some st
           end;
      Some (setLastTouchDistance (Some distance) st)
  | [t0] => Some (handlePointerMove isMobile t0 st)
  | _ => Some st
  end.

Definition handleTouchEnd (st : State) : State :=
  handleMouseUp (setLastTouchDistance None st).

(** The [distance] and the centre that the two-touch branches compute,
    named for the statements below. *)
Definition pinchDistance (t0 t1 : Point) : R :=
  let dx := clientX t0 - clientX t1 in
  let dy := clientY t0 - clientY t1 in
  sqrt (dx * dx + dy * dy).

Definition pinchCentre (t0 t1 : Point) : R * R :=
  ((clientX t0 + clientX t1) / 2, (clientY t0 + clientY t1) / 2).

(** The [scaleFactor] of a pinch from the previous distance [last]. *)
Definition pinchFactor (t0 t1 : Point) (last : R) : R :=
  1 + (pinchDistance t0 t1 / last - 1) * mobile ZOOM_SPEED.

(** The [scaleFactor] of a wheel event. *)
Definition wheelFactor (isMobile : bool) (e : WheelEvent) : R :=
  1 - Math_sign (deltaY e)
      * (if isMobile then mobile ZOOM_SPEED else desktop ZOOM_SPEED).

(** A state with unit scale, no character and a previous two-finger
    distance of 100. *)
Definition pinchState : State :=
  {| viewBox := {| x := 0; y := 0; scale := 1 |};
     characterPositions := [];
     searchInput := "";
     panStateRef := None;
     lastTouchDistance := Some 100 |}.

(** A state whose only character is ["A"], placed at the origin, with
    ["B"] typed in the search box. *)
Definition searchState : State :=
  {| viewBox := {| x := 0; y := 0; scale := 1 |};
     characterPositions := [Worker.placed Worker.holderA 0 0];
     searchInput := "B";
     panStateRef := None;
     lastTouchDistance := None |}.

(** Two fingers put down 100 apart, then moved to 25 apart. *)
Definition pinchStartTouches : list Point :=
  [ {| clientX := 0; clientY := 0 |}; {| clientX := 100; clientY := 0 |} ].

Definition pinchTouches : list Point :=
  [ {| clientX := 0; clientY := 0 |}; {| clientX := 25; clientY := 0 |} ].

End Plane.

(** ** The search animation, frame by frame *)

(** [a < b] as the boolean it evaluates to. *)
Definition js_lt (a b : R) : bool := if Rlt_dec a b then true else false.

(** Whether the frame callback [animate] of [handleSearch] requests
    another frame: [if (progress < 1) requestAnimationFrame(animate)]. *)
Definition animateContinues (elapsed : R) : bool :=
  let duration := 1000 in
  let progress := Rmin (elapsed / duration) 1 in
  js_lt progress 1.

(** ** Drawing a character (drawCharacter) *)

Module Character.

(** [Math.floor] *)
Definition Math_floor (v : R) : Z := Int_part v.

(** A string in a condition: true when it is not empty. *)
Definition truthy (s : string) : bool :=
  match s with
  | EmptyString => false
  | String _ _ => true
  end.

(** [s.split(' ')]: the pieces between the spaces, empty pieces included;
    the empty string gives one empty piece. *)
Fixpoint split_spaces (s : string) : list string :=
  match s with
  | EmptyString => [EmptyString]
  | String c s' =>
      if Ascii.eqb c " " then EmptyString :: split_spaces s'
      else match split_spaces s' with
           | word :: words => String c word :: words
           | [] => [String c EmptyString]
           end
  end.

Definition maxLineLength : nat := 15.

(** One turn of [words.forEach]: from [lines] and [currentLine] to their
    values after [word]. *)
Definition wrapWord (state : list string * string) (word : string)
  : list string * string :=
  let '(lines, currentLine) := state in
  let testLine :=
    if truthy currentLine then currentLine +:+ " " +:+ word else word in
  if (maxLineLength <? String.length testLine)%nat
  then (lines ++ [currentLine], word)
  else (lines, testLine).

(** The [lines] that [drawCharacter] computes from [speechText]. *)
Definition wrapLines (speechText : string) : list string :=
  let words := split_spaces speechText in
  let '(lines, currentLine) :=
    fold_left wrapWord words ([], EmptyString) in
  if truthy currentLine then lines ++ [currentLine] else lines.

Inductive Mood : Type := happy | sad.

(** The tables [drawCharacter] draws from: the two lists of speech texts
    and the numbers of body and head components. *)
Record Tables : Type := {
  speechOptions : list string;
  sadSpeechOptions : list string;
  bodies : nat;
  happyHeads : nat;
  sadHeads : nat
}.

(** [arr[Math.floor(r * arr.length)]]; [None] is [undefined]. *)
Definition pick {A : Type} (arr : list A) (r : R) : option A :=
  let index := Math_floor (r * INR (length arr)) in
  if (index <? 0)%Z then None else arr !! Z.to_nat index.

(** [const normalizedSize = 0.8 + Math.pow(sizeParameter, 2) * 1.2] *)
Definition normalizedSize (sizeParameter : R) : R :=
  0.8 + sizeParameter ^ 2 * 1.2.

(** What [drawCharacter] computes before it builds the elements. *)
Record Drawn : Type := {
  mood : Mood;
  size : R;
  speechText : string;
  bodyIndex : Z;
  headIndex : Z;
  lines : list string;
  bubbleScaleY : R;
  bubbleYOffset : R;
  fontSize : R
}.

(** [drawCharacter]; [rand] is the captured seed of the generator
    [mulberry32(paramSeed * 37)], threaded through its four calls.  An
    [undefined] speech text makes [speechText.split] throw: [None]. *)
Definition drawCharacter (tables : Tables)
    (character : Worker.CharacterPosition) : option Drawn :=
  let sizeParameter := Worker.sizeParameter character in
  let rand := mulberry32 (SeedNumber (Worker.paramSeed character * 37)%Z) in
  let '(r, rand) := mulberry32_call rand in
  let mood := if js_lt r 0.6 then happy else sad in
  let normalizedSize := normalizedSize sizeParameter in
  let '(r, rand) := mulberry32_call rand in
  speechText ←
    match mood with
    | happy => pick (speechOptions tables) r
    | sad => pick (sadSpeechOptions tables) r
    end;
  let '(r, rand) := mulberry32_call rand in
  let bodyIndex := Math_floor (r * INR (bodies tables)) in
  let '(r, rand) := mulberry32_call rand in
  let headIndex :=
    Math_floor (r * INR (match mood with
                         | happy => happyHeads tables
                         | sad => sadHeads tables
                         end)) in
  let lines := wrapLines speechText in
  let lineCount := INR (length lines) in
  let bubbleScaleY := 1 + (lineCount - 1) * 0.5 in
  let bubbleYOffset := (lineCount - 1) * 30 in
  fontSize ← js_div 18 normalizedSize;
  Some {| mood := mood;
          size := normalizedSize;
          speechText := speechText;
          bodyIndex := bodyIndex;
          headIndex := headIndex;
          lines := lines;
          bubbleScaleY := bubbleScaleY;
          bubbleYOffset := bubbleYOffset;
          fontSize := fontSize |}.

(** Whether a string holds a space. *)
Fixpoint has_space (s : string) : bool :=
  match s with
  | EmptyString => false
  | String c s' => Ascii.eqb c " " || has_space s'
  end.

(** The words of a list of lines, in order: those of each line that is
    not empty. *)
Definition linesWords (lines : list string) : list string :=
  flat_map split_spaces (filter (fun line => truthy line = true) lines).

End Character.

(** ** Loading the characters (fetchData, generateCharacterPositions) *)

Module Loader.

(** What the page reads of an element of [data.holders]. *)
Record ApiHolder : Type := {
  owner : string;
  normalizedSize : R
}.

(** The worker held by [workerRef]: the request posted to it and whether
    it has been terminated. *)
Record WorkerHandle : Type := {
  request : list Worker.Holder;
  terminated : bool
}.

Record State : Type := {
  processedDataRef : bool;
  workerRef : option WorkerHandle;
  loading : bool;
  plane : Plane.State
}.

(** The initial values of the refs and states. *)
Definition initialState (isMobile : bool) : State :=
  {| processedDataRef := false;
     workerRef := None;
     loading := true;
     plane := Plane.initialState isMobile |}.

Definition setCharacterPositions
    (positions : list Worker.CharacterPosition) (p : Plane.State)
  : Plane.State :=
  {| Plane.viewBox := Plane.viewBox p;
     Plane.characterPositions := positions;
     Plane.searchInput := Plane.searchInput p;
     Plane.panStateRef := Plane.panStateRef p;
     Plane.lastTouchDistance := Plane.lastTouchDistance p |}.

(** [setSearchInput], called when the search box changes. *)
Definition setSearchInput (input : string) (p : Plane.State) : Plane.State :=
  {| Plane.viewBox := Plane.viewBox p;
     Plane.characterPositions := Plane.characterPositions p;
     Plane.searchInput := input;
     Plane.panStateRef := Plane.panStateRef p;
     Plane.lastTouchDistance := Plane.lastTouchDistance p |}.

(** [generateCharacterPositions]; [windowWorker] is whether
    [window.Worker] exists.  A worker already held is terminated and
    replaced by the new one, to which the request is posted. *)
Definition generateCharacterPositions (windowWorker : bool)
    (data : list Worker.Holder) (st : State) : State :=
  if processedDataRef st then st
  else if windowWorker then
    {| processedDataRef := true;
       workerRef := Some {| request := data; terminated := false |};
       loading := loading st;
       plane := plane st |}
  else
    {| processedDataRef := true;
       workerRef := workerRef st;
       loading := loading st;
       plane := plane st |}.

(** [fetchData]; [response] is the parsed list of holders, [None] when
    the fetch or the parsing throws (the error is logged). *)
Definition fetchData (windowWorker : bool)
    (response : option (list ApiHolder)) (st : State) : State :=
  if processedDataRef st then st
  else
    let st := {| processedDataRef := processedDataRef st;
                 workerRef := workerRef st;
                 loading := true;
                 plane := plane st |} in
    match response with
    | Some holders =>
        let formattedData :=
          map (fun holder => {| Worker.holderID := owner holder;
                                Worker.size := normalizedSize holder |})
              holders in
        generateCharacterPositions windowWorker formattedData st
    | None => st
    end.

(** The [onmessage] handler set on the worker in
    [generateCharacterPositions]; a terminated worker delivers nothing. *)
Definition onWorkerMessage (message : Worker.Response) (st : State) : State :=
  match workerRef st with
  | Some handle =>
      if terminated handle then st
      else if Worker.isComplete message then
        {| processedDataRef := processedDataRef st;
           workerRef := None;
           loading := false;
           plane := setCharacterPositions (Worker.positions message)
                      (plane st) |}
      else st
  | None => st
  end.

(** The cleanup of the effect: the worker held, if any, is terminated. *)
Definition cleanup (st : State) : State :=
  match workerRef st with
  | Some handle =>
      {| processedDataRef := processedDataRef st;
         workerRef := Some {| request := request handle; terminated := true |};
         loading := loading st;
         plane := plane st |}
  | None => st
  end.

(** The worker answers its request: the messages that [Worker.onmessage]
    posts are handed, in order, to [onWorkerMessage]. *)
Definition workerAnswers (st : State) : option State :=
  match workerRef st with
  | Some handle =>
      messages ← Worker.onmessage (request handle);
      Some (fold_left (fun st message => onWorkerMessage message st)
                      messages st)
  | None => Some st
  end.

End Loader.

(** ** The holders API (handler of /api/hello) *)

Module Api.

Definition MAX_SUPPLY : Z := 1000000000000000.
Definition MAX_HOLDERS : nat := 1000.

(** A decoded token account: its owner, in base 58, and its amount (a
    BigInt). *)
Record TokenAccount : Type := {
  accountOwner : string;
  accountAmount : Z
}.

(** [holdersMap.get(owner)] on a Map kept as its entries in insertion
    order; [None] is [undefined]. *)
Fixpoint mapGet (owner : string) (holdersMap : list (string * Z))
  : option Z :=
  match holdersMap with
  | [] => None
  | (k, v) :: rest => if String.eqb k owner then Some v else mapGet owner rest
  end.

(** [holdersMap.set(owner, value)]: a key already there keeps its place. *)
Fixpoint mapSet (owner : string) (value : Z) (holdersMap : list (string * Z))
  : list (string * Z) :=
  match holdersMap with
  | [] => [(owner, value)]
  | (k, v) :: rest =>
      if String.eqb k owner then (k, value) :: rest
      else (k, v) :: mapSet owner value rest
  end.

(** The callback of [tokenAccounts.forEach]. *)
Definition addAccount (holdersMap : list (string * Z))
    (account : TokenAccount) : list (string * Z) :=
  if (0 <? accountAmount account)%Z then
    let owner := accountOwner account in
    let amount := accountAmount account in
    mapSet owner (default 0%Z (mapGet owner holdersMap) + amount)%Z holdersMap
  else holdersMap.

Definition aggregate (tokenAccounts : list TokenAccount)
  : list (string * Z) :=
  fold_left addAccount tokenAccounts [].

(** An entry after the first [map]: [{ owner, amount, percentage }].
    [Number] of a BigInt is taken to be exact. *)
Record Entry : Type := {
  entryOwner : string;
  entryAmount : Z;
  entryPercentage : R
}.

Definition toEntry (kv : string * Z) : Entry :=
  {| entryOwner := fst kv;
     entryAmount := snd kv;
     entryPercentage := IZR (snd kv) / IZR MAX_SUPPLY * 100 |}.

(** [sort((a, b) => Number(b.amount - a.amount))]: the stable sort by
    decreasing amount, as an insertion sort. *)
Fixpoint insertEntry (a : Entry) (sorted : list Entry) : list Entry :=
  match sorted with
  | [] => [a]
  | b :: rest =>
      if (entryAmount b <=? entryAmount a)%Z then a :: b :: rest
      else b :: insertEntry a rest
  end.

Definition sortEntries (entries : list Entry) : list Entry :=
  foldr insertEntry [] entries.

(** An element of [holders] in the response. *)
Record Holder : Type := {
  owner : string;
  amount : Z;
  percentage : R;
  normalizedSize : R
}.

(** The callback of the last [map]; [array] is the array mapped. *)
Definition normalizeHolder (array : list Entry) (holder : Entry)
  : option Holder :=
  first ← head array;
  let maxAmount := IZR (entryAmount first) in
  normalizedAmount ← js_div (IZR (entryAmount holder)) maxAmount;
  Some {| owner := entryOwner holder;
          amount := entryAmount holder;
          percentage := entryPercentage holder;
          normalizedSize := normalizedAmount |}.

(** The [holders] of the response, from the token accounts read. *)
Definition holders (tokenAccounts : list TokenAccount)
  : option (list Holder) :=
  let array :=
    take MAX_HOLDERS
      (drop 1 (sortEntries (map toEntry (aggregate tokenAccounts)))) in
  Worker.map_from (fun _ holder => normalizeHolder array holder) 0%nat array.

(** The sum of the positive amounts of the accounts of an owner. *)
Definition ownerTotal (owner : string) (tokenAccounts : list TokenAccount)
  : Z :=
  foldr (fun account total =>
           if String.eqb (accountOwner account) owner
              && (0 <? accountAmount account)%Z
           then (accountAmount account + total)%Z else total)
        0%Z tokenAccounts.

(** The order of the sorted entries: [a] before [b] when the amount of
    [b] is at most that of [a]. *)
Definition byAmount (a b : Entry) : Prop := (entryAmount b <= entryAmount a)%Z.

(** The element the last [map] gives for [holder] when the first entry of
    the array has amount [maxAmount]. *)
Definition normalized (maxAmount : Z) (holder : Entry) : Holder :=
  {| owner := entryOwner holder;
     amount := entryAmount holder;
     percentage := entryPercentage holder;
     normalizedSize := IZR (entryAmount holder) / IZR maxAmount |}.

End Api.

(** ** Styles of the SVG components (svgs.js)

    A style object is a finite map from property names to values; the
    order of its keys is not modelled. *)

Module Svgs.

Definition isLower (c : ascii) : bool :=
  let n := N_of_ascii c in ((97 <=? n) && (n <=? 122))%N.

(** The upper-case letter of a lower-case one. *)
Definition toUpper (c : ascii) : ascii :=
  if isLower c then ascii_of_N (N_of_ascii c - 32) else c.

(** [str.replace(/-([a-z])/g, (g) => g[1].toUpperCase())]: from the
    left, each hyphen followed by a lower-case letter becomes that letter
    in upper case. *)
Fixpoint toCamelCase (str : string) : string :=
  match str with
  | EmptyString => EmptyString
  | String c rest =>
      if Ascii.eqb c "-" then
        match rest with
        | String d rest' =>
            if isLower d then String (toUpper d) (toCamelCase rest')
            else String c (toCamelCase rest)
        | EmptyString => String c EmptyString
        end
      else String c (toCamelCase rest)
  end.

(** White space that [trim] removes, among the code units below 256. *)
Definition isSpace (c : ascii) : bool :=
  let n := N_of_ascii c in
  ((9 <=? n) && (n <=? 13) || (n =? 32) || (n =? 160))%N.

Fixpoint trimStart (s : string) : string :=
  match s with
  | EmptyString => EmptyString
  | String c rest => if isSpace c then trimStart rest else s
  end.

Fixpoint trimEnd (s : string) : string :=
  match s with
  | EmptyString => EmptyString
  | String c rest =>
      match trimEnd rest with
      | EmptyString => if isSpace c then EmptyString else String c EmptyString
      | kept => String c kept
      end
  end.

(** [s.trim()] *)
Definition trim (s : string) : string := trimEnd (trimStart s).

(** [s.split(sep)] for a separator of one character. *)
Fixpoint split (sep : ascii) (s : string) : list string :=
  match s with
  | EmptyString => [EmptyString]
  | String c rest =>
      if Ascii.eqb c sep then EmptyString :: split sep rest
      else match split sep rest with
           | piece :: pieces => String c piece :: pieces
           | [] => [String c EmptyString]
           end
  end.

(** One turn of the [reduce] of [transformSvgStyle]: [acc] after the
    declaration [style].  A declaration without a colon has an
    [undefined] value, on which [startsWith] throws: [None]. *)
Definition addDeclaration (acc : gmap string string) (style : string)
  : option (gmap string string) :=
  match map trim (split ":" style) with
  | property :: pieces =>
      let camelProperty := toCamelCase property in
      match pieces with
      | value :: _ =>
          if String.eqb camelProperty "fill" && String.eqb value "#aaaaaa"
             || String.prefix "url(" value
          then Some (<[camelProperty := "currentColor"]> acc)
          else Some (<[camelProperty := value]> acc)
      | [] => None
      end
  | [] => None
  end.

(** [transformSvgStyle(styleString, overrideStyles)]; a [null] style
    attribute is [None] as argument, a thrown TypeError is [None] as
    result.  The unused parameter [isHead] is left out. *)
Definition transformSvgStyle (styleString : option string)
    (overrideStyles : gmap string string) : option (gmap string string) :=
  match styleString with
  | None => Some overrideStyles
  | Some EmptyString => Some overrideStyles
  | Some styleString =>
      baseStyles ←
        fold_left (fun acc style => acc ← acc; addDeclaration acc style)
          (filter (fun style => trim style <> EmptyString)
                  (split ";" styleString))
          (Some ∅);
      Some (overrideStyles ∪ baseStyles)
  end.

(** Whether a string holds a hyphen followed by a lower-case letter. *)
Fixpoint hasHyphenLower (s : string) : bool :=
  match s with
  | EmptyString => false
  | String c rest =>
      match rest with
      | EmptyString => false
      | String d _ => Ascii.eqb c "-" && isLower d || hasHyphenLower rest
      end
  end.

(** Whether a string starts with a lower-case letter. *)
Definition headLower (s : string) : bool :=
  match s with
  | EmptyString => false
  | String c _ => isLower c
  end.

(** What the style string never contributes to the style object: a
    value that starts with [url(], or the grey fill [#aaaaaa]. *)
Definition cleanStyles (acc : gmap string string) : Prop :=
  forall k v,
    acc !! k = Some v ->
    String.prefix "url(" v = false /\
    ~ (k = "fill"%string /\ v = "#aaaaaa"%string).

(** Whether a string holds the character [c]. *)
Fixpoint contains (c : ascii) (s : string) : bool :=
  match s with
  | EmptyString => false
  | String d rest => Ascii.eqb d c || contains c rest
  end.

End Svgs.

(** * Properties *)

(** ** 32-bit words *)

Section Words.

Local Open Scope Z_scope.

Lemma two32_pow : two32 = 2 ^ 32.
Proof. reflexivity. Qed.

Lemma ToInt32_mod z : ToInt32 z mod two32 = z mod two32.
Proof.
  unfold ToInt32. cbv zeta. destruct (z mod two32 <? 2147483648).
  - apply Z.mod_mod. discriminate.
  - rewrite <- Zminus_mod_idemp_r, Z.mod_same by discriminate.
    rewrite Z.sub_0_r. apply Z.mod_mod. discriminate.
Qed.

Lemma testbit_mod32 a i :
  Z.testbit (a mod two32) i = (i <? 32) && Z.testbit a i.
Proof.
  rewrite two32_pow. destruct (Z.ltb_spec i 32).
  - destruct (Z.ltb_spec i 0).
    + now rewrite !Z.testbit_neg_r.
    + rewrite Z.mod_pow2_bits_low by lia. reflexivity.
  - rewrite Z.mod_pow2_bits_high by lia. reflexivity.
Qed.

Lemma lxor_mod32 a b :
  Z.lxor a b mod two32 = Z.lxor (a mod two32) (b mod two32).
Proof.
  apply Z.bits_inj'. intros i _.
  rewrite Z.lxor_spec, !testbit_mod32, Z.lxor_spec.
  destruct (i <? 32); reflexivity.
Qed.

Lemma lor_mod32 a b :
  Z.lor a b mod two32 = Z.lor (a mod two32) (b mod two32).
Proof.
  apply Z.bits_inj'. intros i _.
  rewrite Z.lor_spec, !testbit_mod32, Z.lor_spec.
  destruct (i <? 32); reflexivity.
Qed.

Lemma shiftr_range a n :
  0 <= n -> 0 <= a < two32 -> 0 <= Z.shiftr a n < two32.
Proof.
  intros Hn [H0 H1]. rewrite Z.shiftr_div_pow2 by assumption.
  assert (0 < 2 ^ n) by (apply Z.pow_pos_nonneg; lia).
  split.
  - apply Z.div_pos; lia.
  - apply Z.le_lt_trans with a; [|assumption].
    apply Z.div_le_upper_bound; [assumption|]. nia.
Qed.

Lemma shiftr_mod32 a n :
  0 <= n -> Z.shiftr (a mod two32) n mod two32 = Z.shiftr (a mod two32) n.
Proof.
  intros Hn. apply Z.mod_small, shiftr_range; [assumption|].
  apply Z.mod_pos_bound. reflexivity.
Qed.

Lemma js_xor_mod a b :
  js_xor a b mod two32 = Z.lxor (a mod two32) (b mod two32).
Proof. unfold js_xor. now rewrite lxor_mod32, !ToInt32_mod. Qed.

Lemma js_or_mod a b :
  js_or a b mod two32 = Z.lor (a mod two32) (b mod two32).
Proof. unfold js_or. now rewrite lor_mod32, !ToInt32_mod. Qed.

Lemma js_ushr_mod a n :
  0 <= n -> js_ushr a n mod two32 = Z.shiftr (a mod two32) n.
Proof. intros Hn. unfold js_ushr, ToUint32. now apply shiftr_mod32. Qed.

Lemma Math_imul_mod a b :
  Math_imul a b mod two32 = ((a mod two32) * (b mod two32)) mod two32.
Proof.
  unfold Math_imul. rewrite ToInt32_mod, Z.mul_mod by discriminate.
  now rewrite !ToInt32_mod.
Qed.

(** The signed 32-bit computation of the closure is the unsigned one on
    the residue of the seed. *)
Lemma mulberry32_word_unsigned t0 :
  mulberry32_word t0 = SpecPRNG.next_word_t (t0 mod two32).
Proof.
  unfold mulberry32_word, SpecPRNG.next_word_t. cbv zeta.
  set (s := t0 mod two32).
  set (t1 := Math_imul _ _).
  set (u1 := (Z.lxor s (Z.shiftr s 15) * Z.lor s 1) mod two32).
  assert (H1 : t1 mod two32 = u1).
  { unfold t1, u1. rewrite Math_imul_mod, js_xor_mod, js_or_mod.
    rewrite js_ushr_mod by lia. reflexivity. }
  set (t2 := js_xor t1 _).
  set (u2 := Z.lxor u1 _).
  assert (H2 : t2 mod two32 = u2).
  { unfold t2, u2. rewrite js_xor_mod, H1. f_equal.
    rewrite Z.add_mod by discriminate. rewrite H1, Math_imul_mod.
    rewrite js_xor_mod, js_or_mod, js_ushr_mod, H1 by lia.
    reflexivity. }
  unfold js_ushr at 1. unfold ToUint32. rewrite Z.shiftr_0_r.
  rewrite js_xor_mod, js_ushr_mod, H2 by lia.
  rewrite lxor_mod32. rewrite <- H2.
  rewrite shiftr_mod32 by lia. rewrite Z.mod_mod by discriminate.
  reflexivity.
Qed.

Lemma mulberry32_word_range t0 : 0 <= mulberry32_word t0 < two32.
Proof.
  rewrite mulberry32_word_unsigned. unfold SpecPRNG.next_word_t.
  cbv zeta. apply Z.mod_pos_bound. reflexivity.
Qed.

End Words.

(** ** The generator *)

Section Generator.

Lemma word_fraction_range w :
  (0 <= w < two32)%Z -> 0 <= IZR w / 4294967296 < 1.
Proof.
  intros [H0 H1]. apply IZR_le in H0. apply IZR_lt in H1.
  unfold two32 in H1. split.
  - apply Rmult_le_reg_r with 4294967296; [lra|].
    unfold Rdiv. rewrite Rmult_assoc, Rinv_l by lra. lra.
  - apply Rmult_lt_reg_r with 4294967296; [lra|].
    unfold Rdiv. rewrite Rmult_assoc, Rinv_l by lra. lra.
Qed.

Lemma word_fraction_inj a b :
  IZR a / 4294967296 = IZR b / 4294967296 -> a = b.
Proof.
  intros H. apply eq_IZR. unfold Rdiv in H.
  apply Rmult_eq_reg_r in H; [assumption|].
  apply Rinv_neq_0_compat. lra.
Qed.

Lemma mulberry32_call_range seed :
  0 <= fst (mulberry32_call seed) < 1.
Proof.
  unfold mulberry32_call. cbn [fst].
  apply word_fraction_range, mulberry32_word_range.
Qed.

Lemma mulberry32_call_next_t seed :
  (fst (mulberry32_call seed), (snd (mulberry32_call seed) mod two32)%Z) =
  SpecPRNG.next_t seed.
Proof.
  unfold mulberry32_call, SpecPRNG.next_t. cbn [fst snd].
  now rewrite mulberry32_word_unsigned.
Qed.

Lemma next_t_mod state :
  SpecPRNG.next_t (state mod two32) = SpecPRNG.next_t state.
Proof.
  unfold SpecPRNG.next_t. cbv zeta.
  now rewrite Z.add_mod_idemp_l by discriminate.
Qed.

Lemma draws_next_t k : forall seed state,
  (seed mod two32 = state mod two32)%Z ->
  draws k seed = SpecPRNG.draws_with SpecPRNG.next_t k state.
Proof.
  induction k as [|k IH]; intros seed state Hmod; [reflexivity|].
  cbn [draws SpecPRNG.draws_with].
  pose proof (mulberry32_call_next_t seed) as Hc.
  rewrite <- next_t_mod, Hmod, next_t_mod in Hc.
  destruct (mulberry32_call seed) as [r seed'].
  destruct (SpecPRNG.next_t state) as [r' state'] eqn:Hn.
  cbn [fst snd] in Hc. injection Hc as -> Hs.
  f_equal. apply IH. rewrite Hs. symmetry.
  unfold SpecPRNG.next_t in Hn. cbv zeta in Hn. injection Hn as _ <-.
  apply Z.mod_mod. discriminate.
Qed.

Lemma convertStringToNumber_fold l : forall acc,
  fold_left (fun acc char => (acc + charCodeAt0 char)%Z) l acc =
  (acc + SpecPRNG.sum_codes (string_of_list_ascii l))%Z.
Proof.
  induction l as [|c l IH]; intros acc; cbn.
  - lia.
  - rewrite IH. lia.
Qed.

Lemma convertStringToNumber_sum s :
  convertStringToNumber (SeedString s) = SpecPRNG.sum_codes s.
Proof.
  unfold convertStringToNumber. rewrite convertStringToNumber_fold.
  now rewrite string_of_list_ascii_of_string.
Qed.

End Generator.

(** C1, as stated, fails: the word of the first call of [mulberry32(42)]
    differs from the one the specified algorithm gives, whose second mix
    step shifts and ors [state] where the code shifts and ors [t]. *)
Lemma mulberry32_not_spec_next_at_42 :
  fst (mulberry32_call (mulberry32 (SeedNumber 42))) <> fst (SpecPRNG.next 42).
Proof.
  unfold mulberry32_call, SpecPRNG.next, mulberry32, convertStringToNumber.
  cbn [fst]. intros H. apply word_fraction_inj in H.
  vm_compute in H. discriminate H.
Qed.

(** C1 (amended): a string seed is folded to the sum of its character
    codes and a number seed is used as it is; each call adds 0x6D2B79F5 to
    the captured seed (kept unreduced, only its residue modulo 2^32 is
    read) and returns the number of the specified algorithm in which the
    second mix step reads the once-mixed [t]:
    [t = t xor (t + (t xor (t >>> 7)) * (t or 61))]; the number returned
    is in [0, 1), and so a generator returns, call after call, the sequence
    of that algorithm.  The number returned is a 32-bit word over 2^32,
    which a double holds exactly. *)
Theorem mulberry32_algorithm :
  (forall s, mulberry32 (SeedString s) = SpecPRNG.sum_codes s) /\
  (forall n, mulberry32 (SeedNumber n) = n) /\
  (forall seed,
     snd (mulberry32_call seed) = (seed + 0x6D2B79F5)%Z /\
     (fst (mulberry32_call seed), (snd (mulberry32_call seed) mod two32)%Z) =
       SpecPRNG.next_t seed /\
     0 <= fst (mulberry32_call seed) < 1) /\
  (forall k seed, draws k seed = SpecPRNG.draws_with SpecPRNG.next_t k seed).
Proof.
  split; [|split; [|split]].
  - intros s. apply convertStringToNumber_sum.
  - reflexivity.
  - intros seed. split; [reflexivity|]. split.
    + apply mulberry32_call_next_t.
    + apply mulberry32_call_range.
  - intros k seed. now apply draws_next_t.
Qed.

(** The words of the first three calls of [mulberry32(42)]. *)
Example mulberry32_42_words :
  let s1 := (42 + 0x6D2B79F5)%Z in
  let s2 := (s1 + 0x6D2B79F5)%Z in
  let s3 := (s2 + 0x6D2B79F5)%Z in
  (mulberry32_word s1, mulberry32_word s2, mulberry32_word s3) =
  (2581720956, 1925393290, 3661312704)%Z.
Proof. vm_compute. reflexivity. Qed.

(** ** The layout worker *)

Section Layout.

Import Worker.

Lemma js_div_Some a b : b <> 0 -> js_div a b = Some (a / b).
Proof. intros Hb. unfold js_div. now destruct (Req_dec_T b 0). Qed.

Lemma js_div_zero a : js_div a 0 = None.
Proof. unfold js_div. now destruct (Req_dec_T 0 0). Qed.

Lemma INR_length_nonzero (n : nat) : (0 < n)%nat -> INR n <> 0.
Proof. intros Hn. apply not_0_INR. lia. Qed.

Lemma draws_2 seed : draws 2 seed = [draw1 seed; draw2 seed].
Proof.
  unfold draw1, draw2. cbn [draws].
  destruct (mulberry32_call seed) as [r1 s1]. cbn [fst snd].
  now destruct (mulberry32_call s1).
Qed.

Lemma baseRadius_Some length index size :
  (0 < length)%nat ->
  baseRadius length index size =
  Some (maxRadius length * sqrt (INR index / INR length) * sizeScale size).
Proof.
  intros Hn. unfold baseRadius.
  now rewrite js_div_Some by now apply INR_length_nonzero.
Qed.

Lemma polar_Some length index item :
  (0 < length)%nat ->
  let seed := mulberry32 (SeedString (holderID item)) in
  polar length index item =
  Some (INR index * goldenAngle + (draw1 seed - 0.5) * 0.1,
        maxRadius length * sqrt (INR index / INR length)
          * sizeScale (size item)
        + (draw2 seed - 0.5) * (maxRadius length * 0.9 / INR length) * 2
          * sizeScale (size item)).
Proof.
  intros Hn seed. unfold polar, draw1, draw2. fold seed.
  rewrite baseRadius_Some by assumption. cbn [mbind option_bind].
  destruct (mulberry32_call seed) as [r1 s1]. cbn [fst snd].
  destruct (mulberry32_call s1) as [r2 s2]. cbn [fst].
  now rewrite js_div_Some by now apply INR_length_nonzero.
Qed.

(** With no element the callback would divide by zero. *)
Lemma placeEntity_zero_length index item :
  placeEntity 0 index item = None.
Proof.
  unfold placeEntity, polar, baseRadius. cbn [INR].
  rewrite !js_div_zero. reflexivity.
Qed.

Lemma placeEntity_polar length index item angle radius :
  polar length index item = Some (angle, radius) ->
  placeEntity length index item = Some (placed item angle radius).
Proof. intros H. unfold placeEntity. now rewrite H. Qed.

Lemma placeEntity_Some length index item :
  (0 < length)%nat ->
  exists angle radius,
    polar length index item = Some (angle, radius) /\
    placeEntity length index item = Some (placed item angle radius).
Proof.
  intros Hn. eexists _, _. split.
  - now apply polar_Some.
  - apply placeEntity_polar. now apply polar_Some.
Qed.

Lemma map_from_Some {A B : Type} (f : nat -> A -> option B) l :
  forall start,
    (forall i item, l !! i = Some item -> is_Some (f (start + i)%nat item)) ->
    exists bs,
      map_from f start l = Some bs /\
      length bs = length l /\
      forall i item, l !! i = Some item ->
        exists b, bs !! i = Some b /\ f (start + i)%nat item = Some b.
Proof.
  induction l as [|a l IH]; intros start Hf.
  - exists []. split; [reflexivity|]. split; [reflexivity|].
    intros i item Hi. discriminate Hi.
  - destruct (Hf 0%nat a eq_refl) as [b Hb].
    destruct (IH (S start)) as (bs & Hbs & Hlen & Hnth).
    { intros i item Hi. specialize (Hf (S i) item Hi).
      now rewrite Nat.add_succ_r in Hf. }
    exists (b :: bs). split; [|split].
    + cbn [map_from]. rewrite Nat.add_0_r in Hb. rewrite Hb, Hbs.
      reflexivity.
    + cbn [length]. now rewrite Hlen.
    + intros [|i] item Hi.
      * injection Hi as <-. exists b. split; [reflexivity|assumption].
      * destruct (Hnth i item Hi) as (b' & Hb' & Hfb').
        exists b'. split; [assumption|].
        now rewrite Nat.add_succ_r.
Qed.

(** What the handler posts: one message, complete, with one position per
    record, each the value of the callback at that index. *)
Lemma onmessage_posts data :
  exists ps,
    onmessage data = Some [ {| positions := ps; isComplete := true |} ] /\
    length ps = length data /\
    forall i item, data !! i = Some item ->
      exists p, ps !! i = Some p /\
                placeEntity (length data) i item = Some p.
Proof.
  destruct (map_from_Some (placeEntity (length data)) data 0%nat)
    as (ps & Hps & Hlen & Hnth).
  { intros i item Hi. cbn [Nat.add].
    destruct (placeEntity_Some (length data) i item) as (? & ? & _ & ->).
    - apply lookup_lt_Some in Hi. lia.
    - eauto. }
  exists ps. split; [|split].
  - unfold onmessage. now rewrite Hps.
  - assumption.
  - assumption.
Qed.

Lemma onmessage_two (a b : Holder) :
  exists pa pb,
    placeEntity 2 0 a = Some pa /\ placeEntity 2 1 b = Some pb /\
    onmessage [a; b] =
    Some [ {| positions := [pa; pb]; isComplete := true |} ].
Proof.
  destruct (placeEntity_Some 2 0 a) as (? & ? & _ & Ha); [lia|].
  destruct (placeEntity_Some 2 1 b) as (? & ? & _ & Hb); [lia|].
  eexists _, _. split; [exact Ha|]. split; [exact Hb|].
  unfold onmessage. cbn [length map_from]. rewrite Ha, Hb. reflexivity.
Qed.

Lemma draw2_A :
  draw2 (mulberry32 (SeedString "A")) = 1640896415 / 4294967296.
Proof.
  unfold draw2, mulberry32_call. cbn [fst snd].
  replace (mulberry32_word _) with 1640896415%Z by (vm_compute; reflexivity).
  reflexivity.
Qed.

End Layout.

(** C2: for a list of [n] records, the entity at index [i] is placed at
    [x = radius * cos angle], [y = radius * sin angle], with
    [angle = i * pi * (3 - sqrt 5) + (r1 - 0.5) * 0.1] and
    [radius = sqrt n * 500 * sqrt (i / n) * (1 + 2 * magnitude)
              + (r2 - 0.5) * 2 * (1 + 2 * magnitude) * (sqrt n * 500 * 0.9 / n)],
    [r1] and [r2] being the first two draws of a generator seeded with the
    identity. *)
Theorem layout_spiral_formula
    (data : list Worker.Holder) (i : nat) (item : Worker.Holder) :
  data !! i = Some item ->
  exists ps p r1 r2,
    Worker.onmessage data =
      Some [ {| Worker.positions := ps; Worker.isComplete := true |} ] /\
    ps !! i = Some p /\
    draws 2 (mulberry32 (SeedString (Worker.holderID item))) = [r1; r2] /\
    let n := INR (length data) in
    let magnitude := Worker.size item in
    let angle := INR i * (PI * (3 - sqrt 5)) + (r1 - 0.5) * 0.1 in
    let radius :=
      sqrt n * 500 * sqrt (INR i / n) * (1 + 2 * magnitude)
      + (r2 - 0.5) * 2 * (1 + 2 * magnitude) * (sqrt n * 500 * 0.9 / n) in
    Worker.x p = radius * cos angle /\ Worker.y p = radius * sin angle.
Proof.
  intros Hi.
  destruct (onmessage_posts data) as (ps & Hmsg & _ & Hnth).
  destruct (Hnth i item Hi) as (p & Hp & Hplace).
  assert (Hn : (0 < length data)%nat) by (apply lookup_lt_Some in Hi; lia).
  pose proof (polar_Some (length data) i item Hn) as Hpolar.
  cbv zeta in Hpolar.
  rewrite (placeEntity_polar _ _ _ _ _ Hpolar) in Hplace.
  apply (inj Some) in Hplace. subst p.
  eexists ps, _, _, _. split; [exact Hmsg|]. split; [exact Hp|].
  split; [apply draws_2|]. cbv zeta. unfold Worker.placed. cbn [Worker.x Worker.y].
  unfold Worker.goldenAngle, Worker.maxRadius, Worker.sizeScale.
  split; (apply f_equal2; [unfold Rdiv; ring | reflexivity]).
Qed.

Lemma layout_spiral_formula_witness :
  Worker.scenario !! 1%nat = Some Worker.holderB /\
  exists ps p r1 r2,
    Worker.onmessage Worker.scenario =
      Some [ {| Worker.positions := ps; Worker.isComplete := true |} ] /\
    ps !! 1%nat = Some p /\
    draws 2 (mulberry32 (SeedString "B")) = [r1; r2] /\
    Worker.x p =
      (sqrt (INR 2) * 500 * sqrt (INR 1 / INR 2) * (1 + 2 * 1)
       + (r2 - 0.5) * 2 * (1 + 2 * 1) * (sqrt (INR 2) * 500 * 0.9 / INR 2))
      * cos (INR 1 * (PI * (3 - sqrt 5)) + (r1 - 0.5) * 0.1) /\
    Worker.y p =
      (sqrt (INR 2) * 500 * sqrt (INR 1 / INR 2) * (1 + 2 * 1)
       + (r2 - 0.5) * 2 * (1 + 2 * 1) * (sqrt (INR 2) * 500 * 0.9 / INR 2))
      * sin (INR 1 * (PI * (3 - sqrt 5)) + (r1 - 0.5) * 0.1).
Proof.
  split; [reflexivity|].
  apply (layout_spiral_formula Worker.scenario 1 Worker.holderB).
  reflexivity.
Defined.

(** C5: the position and the bounding box the layout gives an entity
    depend only on its index, its magnitude, the number of records and the
    seed derived from its identity: two runs (on the same list, or on two
    lists that agree on these four) give that entity the same position and
    the same bounding box. *)
Theorem layout_deterministic
    (data1 data2 : list Worker.Holder) (i : nat)
    (item1 item2 : Worker.Holder) :
  length data1 = length data2 ->
  data1 !! i = Some item1 ->
  data2 !! i = Some item2 ->
  Worker.size item1 = Worker.size item2 ->
  convertStringToNumber (SeedString (Worker.holderID item1)) =
  convertStringToNumber (SeedString (Worker.holderID item2)) ->
  exists ps1 ps2 p1 p2,
    Worker.onmessage data1 =
      Some [ {| Worker.positions := ps1; Worker.isComplete := true |} ] /\
    Worker.onmessage data2 =
      Some [ {| Worker.positions := ps2; Worker.isComplete := true |} ] /\
    ps1 !! i = Some p1 /\ ps2 !! i = Some p2 /\
    Worker.x p1 = Worker.x p2 /\ Worker.y p1 = Worker.y p2 /\
    Worker.boundingBox p1 = Worker.boundingBox p2.
Proof.
  intros Hlen Hi1 Hi2 Hsize Hseed.
  destruct (onmessage_posts data1) as (ps1 & Hmsg1 & _ & Hnth1).
  destruct (onmessage_posts data2) as (ps2 & Hmsg2 & _ & Hnth2).
  destruct (Hnth1 i item1 Hi1) as (p1 & Hp1 & Hplace1).
  destruct (Hnth2 i item2 Hi2) as (p2 & Hp2 & Hplace2).
  assert (Hn : (0 < length data1)%nat) by (apply lookup_lt_Some in Hi1; lia).
  pose proof (polar_Some (length data1) i item1 Hn) as Hpolar1.
  rewrite Hlen in Hn.
  pose proof (polar_Some (length data2) i item2 Hn) as Hpolar2.
  cbv zeta in Hpolar1, Hpolar2.
  rewrite (placeEntity_polar _ _ _ _ _ Hpolar1) in Hplace1.
  rewrite (placeEntity_polar _ _ _ _ _ Hpolar2) in Hplace2.
  apply (inj Some) in Hplace1, Hplace2. subst p1 p2.
  eexists ps1, ps2, _, _.
  split; [exact Hmsg1|]. split; [exact Hmsg2|].
  split; [exact Hp1|]. split; [exact Hp2|].
  unfold Worker.placed, mulberry32.
  cbn [Worker.x Worker.y Worker.boundingBox].
  rewrite Hlen, Hsize, Hseed. repeat split.
Qed.

Lemma layout_deterministic_witness :
  let data1 := [ {| Worker.holderID := "AC"; Worker.size := 1 |} ] in
  let data2 := [ {| Worker.holderID := "BB"; Worker.size := 1 |} ] in
  exists ps1 ps2 p1 p2,
    Worker.onmessage data1 =
      Some [ {| Worker.positions := ps1; Worker.isComplete := true |} ] /\
    Worker.onmessage data2 =
      Some [ {| Worker.positions := ps2; Worker.isComplete := true |} ] /\
    ps1 !! 0%nat = Some p1 /\ ps2 !! 0%nat = Some p2 /\
    Worker.x p1 = Worker.x p2 /\ Worker.y p1 = Worker.y p2 /\
    Worker.boundingBox p1 = Worker.boundingBox p2.
Proof.
  intros data1 data2.
  apply (layout_deterministic data1 data2 0
           {| Worker.holderID := "AC"; Worker.size := 1 |}
           {| Worker.holderID := "BB"; Worker.size := 1 |});
    reflexivity.
Defined.

(** C6: for the empty list the handler posts an empty list of positions,
    and no division by zero occurs: the callback, which would divide by
    zero for a list of length 0, is not evaluated. *)
Theorem layout_empty :
  Worker.onmessage [] =
    Some [ {| Worker.positions := []; Worker.isComplete := true |} ] /\
  (forall index item, Worker.placeEntity 0 index item = None).
Proof.
  split.
  - reflexivity.
  - apply placeEntity_zero_length.
Qed.

(** C9, as stated, fails for index 0: in the scenario the radius of the
    entity at index 0, after the perturbation the code adds, is not 0, and
    the entity is posted at that radius. *)
Lemma scenario_index0_radius_nonzero :
  exists angle radius p1,
    Worker.polar (length Worker.scenario) 0 Worker.holderA =
      Some (angle, radius) /\
    radius <> 0 /\
    Worker.onmessage Worker.scenario =
      Some [ {| Worker.positions := [Worker.placed Worker.holderA angle radius; p1];
                Worker.isComplete := true |} ].
Proof.
  pose proof (polar_Some 2 0 Worker.holderA ltac:(lia)) as Hpolar.
  cbv zeta in Hpolar.
  destruct (onmessage_two Worker.holderA Worker.holderB)
    as (pa & pb & Ha & _ & Hmsg).
  rewrite (placeEntity_polar _ _ _ _ _ Hpolar) in Ha.
  apply (inj Some) in Ha. subst pa.
  eexists _, _, pb. split; [exact Hpolar|]. split; [|exact Hmsg].
  change (Worker.holderID Worker.holderA) with "A"%string.
  rewrite draw2_A.
  unfold Worker.sizeScale, Worker.maxRadius. cbn [Worker.size Worker.holderA INR].
  assert (Hs : 0 < sqrt (1 + 1)) by (apply sqrt_lt_R0; lra).
  assert (H0 : 0 / (1 + 1) = 0) by lra. rewrite H0, sqrt_0.
  assert (Hq : sqrt (1 + 1) * 500 * 0.9 / (1 + 1) = sqrt (1 + 1) * 225) by lra.
  rewrite Hq. nra.
Qed.

(** C9 (amended): in the scenario ([n = 2]) the radius before the
    perturbation is 0 at index 0 whatever the magnitude (the final radius
    there is the perturbation alone), and at index 1 the radius before the
    perturbation is [maxRadius * sqrt 0.5 * 3] with
    [maxRadius = sqrt 2 * 500]. *)
Theorem scenario_base_radius :
  (forall magnitude,
     Worker.baseRadius (length Worker.scenario) 0 magnitude = Some 0) /\
  (forall id magnitude,
     let item := {| Worker.holderID := id; Worker.size := magnitude |} in
     exists angle,
       Worker.polar (length Worker.scenario) 0 item =
       Some (angle,
             0 + (draw2 (mulberry32 (SeedString id)) - 0.5)
                 * (Worker.maxRadius 2 * 0.9 / 2) * 2
                 * (1 + magnitude * 2))) /\
  Worker.baseRadius (length Worker.scenario) 1 (Worker.size Worker.holderB) =
    Some (Worker.maxRadius 2 * sqrt 0.5 * 3) /\
  Worker.maxRadius (length Worker.scenario) = sqrt 2 * 500.
Proof.
  assert (H0 : sqrt (INR 0 / INR 2) = 0).
  { cbn [INR]. replace (0 / (1 + 1)) with 0 by lra. apply sqrt_0. }
  split; [|split; [|split]].
  - intros magnitude. cbn [length Worker.scenario].
    rewrite baseRadius_Some by lia. rewrite H0. f_equal. ring.
  - intros id magnitude item. cbn [length Worker.scenario].
    pose proof (polar_Some 2 0 item ltac:(lia)) as Hpolar.
    cbv zeta in Hpolar. eexists. rewrite Hpolar.
    apply f_equal, f_equal2; [reflexivity|].
    rewrite H0. unfold item, Worker.sizeScale.
    cbn [Worker.size Worker.holderID INR].
    replace (1 + 1) with 2 by lra. ring.
  - cbn [length Worker.scenario]. rewrite baseRadius_Some by lia.
    f_equal. unfold Worker.sizeScale. cbn [Worker.size Worker.holderB INR].
    replace (1 / (1 + 1)) with 0.5 by lra. ring.
  - unfold Worker.maxRadius. cbn [length Worker.scenario INR].
    replace (1 + 1) with 2 by lra. reflexivity.
Qed.

(** C10: for a list of [m] records the handler posts exactly one message,
    marked complete, whose list of positions has [m] entries in the order
    of the input: the [i]-th carries the identity, the magnitude and the
    seed of the [i]-th record and a bounding box of width and height
    [600 * magnitude] centred on its position. *)
Theorem onmessage_single_complete_response (data : list Worker.Holder) :
  exists ps,
    Worker.onmessage data =
      Some [ {| Worker.positions := ps; Worker.isComplete := true |} ] /\
    length ps = length data /\
    forall i item, data !! i = Some item ->
      exists p,
        ps !! i = Some p /\
        Worker.walletAddress p = Worker.holderID item /\
        Worker.sizeParameter p = Worker.size item /\
        Worker.paramSeed p =
          convertStringToNumber (SeedString (Worker.holderID item)) /\
        let box := Worker.boundingBox p in
        Worker.width box = 600 * Worker.size item /\
        Worker.height box = 600 * Worker.size item /\
        Worker.left box = Worker.x p - Worker.width box / 2 /\
        Worker.right box = Worker.x p + Worker.width box / 2 /\
        Worker.top box = Worker.y p - Worker.height box / 2 /\
        Worker.bottom box = Worker.y p + Worker.height box / 2.
Proof.
  destruct (onmessage_posts data) as (ps & Hmsg & Hlen & Hnth).
  exists ps. split; [exact Hmsg|]. split; [exact Hlen|].
  intros i item Hi.
  destruct (Hnth i item Hi) as (p & Hp & Hplace).
  assert (Hn : (0 < length data)%nat) by (apply lookup_lt_Some in Hi; lia).
  destruct (placeEntity_Some (length data) i item Hn)
    as (angle & radius & _ & Hplaced).
  rewrite Hplaced in Hplace. apply (inj Some) in Hplace. subst p.
  exists (Worker.placed item angle radius).
  split; [exact Hp|]. cbv zeta. unfold Worker.placed.
  cbn [Worker.walletAddress Worker.sizeParameter Worker.paramSeed
       Worker.boundingBox Worker.width Worker.height Worker.left
       Worker.right Worker.top Worker.bottom Worker.x Worker.y].
  repeat split.
Qed.

(** ** The viewport *)

Section Viewport.

Import Plane.

Lemma zoomUpdater_Some scaleFactor pointX pointY prev :
  scale prev <> 0 ->
  zoomUpdater scaleFactor pointX pointY prev =
  Some {| scale := scale prev * scaleFactor;
          x := x prev
               - (pointX - centerX FIXED_VIEWPORT - x prev) / scale prev
                 * (scaleFactor - 1) * scale prev;
          y := y prev
               - (pointY - centerY FIXED_VIEWPORT - y prev) / scale prev
                 * (scaleFactor - 1) * scale prev |}.
Proof.
  intros Hs. unfold zoomUpdater.
  rewrite !js_div_Some by assumption. reflexivity.
Qed.

(** The point under [(pointX, pointY)] stays there, whatever the factor. *)
Lemma zoomUpdater_anchor scaleFactor pointX pointY prev wx wy :
  scale prev <> 0 ->
  screenPosition prev wx wy = (pointX, pointY) ->
  exists vb,
    zoomUpdater scaleFactor pointX pointY prev = Some vb /\
    scale vb = scale prev * scaleFactor /\
    screenPosition vb wx wy = (pointX, pointY).
Proof.
  intros Hs Hpos. rewrite zoomUpdater_Some by assumption.
  eexists. split; [reflexivity|]. split; [reflexivity|].
  unfold screenPosition in *. cbn [x y scale]. cbv zeta in *.
  apply pair_equal_spec in Hpos. destruct Hpos as [<- <-].
  apply pair_equal_spec. split; field; assumption.
Qed.

Lemma handleWheel_zoom isMobile e st vb :
  zoomUpdater (wheelFactor isMobile e) (wheelX e) (wheelY e) (viewBox st)
    = Some vb ->
  handleWheel isMobile e st = Some (setViewBox vb st).
Proof.
  intros H. unfold handleWheel. unfold wheelFactor in H.
  rewrite H. reflexivity.
Qed.

(** A pinch with a previous distance that is a number other than 0. *)
Lemma handleTouchMove_zoom isMobile t0 t1 st last vb :
  lastTouchDistance st = Some last ->
  last <> 0 ->
  zoomUpdater (pinchFactor t0 t1 last)
    (fst (pinchCentre t0 t1)) (snd (pinchCentre t0 t1)) (viewBox st)
    = Some vb ->
  handleTouchMove isMobile [t0; t1] st =
  Some (setLastTouchDistance (Some (pinchDistance t0 t1))
          (setViewBox vb st)).
Proof.
  intros Hlast Hne Hzoom. unfold handleTouchMove. rewrite Hlast.
  destruct (Req_dec_T last 0) as [Heq|_]; [contradiction|].
  rewrite js_div_Some by assumption.
  unfold pinchFactor, pinchCentre, pinchDistance in Hzoom.
  cbn [fst snd] in Hzoom. cbn [mbind option_bind].
  rewrite Hzoom. reflexivity.
Qed.

(** The first move of a pinch, or one after a distance of 0, only
    records the distance. *)
Lemma handleTouchMove_record isMobile t0 t1 st :
  lastTouchDistance st = None \/ lastTouchDistance st = Some 0 ->
  handleTouchMove isMobile [t0; t1] st =
  Some (setLastTouchDistance (Some (pinchDistance t0 t1)) st).
Proof.
  intros [Hlast|Hlast]; unfold handleTouchMove; rewrite Hlast.
  - reflexivity.
  - destruct (Req_dec_T 0 0) as [_|Hne]; [reflexivity|contradiction].
Qed.

Lemma Math_sign_cases v :
  Math_sign v = 1 \/ Math_sign v = -1 \/ Math_sign v = 0.
Proof.
  unfold Math_sign. destruct (Rlt_dec 0 v); [now left|].
  destruct (Rlt_dec v 0); [right; now left|right; now right].
Qed.

Lemma wheelFactor_desktop_pos e : 0 < wheelFactor false e.
Proof.
  unfold wheelFactor. cbn [ZOOM_SPEED desktop].
  destruct (Math_sign_cases (deltaY e)) as [->|[->| ->]]; lra.
Qed.

Lemma pinchFactor_pos t0 t1 last :
  0 < last ->
  0 < pinchFactor t0 t1 last <-> last < 2 * pinchDistance t0 t1.
Proof.
  intros Hlast. unfold pinchFactor. cbn [ZOOM_SPEED mobile].
  set (d := pinchDistance t0 t1).
  assert (Hd : d / last * last = d) by (field; lra).
  split; intros H.
  - assert (0 < (1 + (d / last - 1) * 2) * last)
      by (apply Rmult_lt_0_compat; assumption).
    nra.
  - apply Rmult_lt_reg_r with last; [assumption|]. nra.
Qed.

Lemma characterIndex_miss (l : list Worker.CharacterPosition) (k : string) :
  forall index : gmap string Worker.CharacterPosition,
    (forall char, char ∈ l -> Worker.walletAddress char <> k) ->
    fold_left (fun index char => <[Worker.walletAddress char := char]> index)
              l index !! k = index !! k.
Proof.
  induction l as [|c l IH]; intros index Hne; [reflexivity|].
  cbn [fold_left]. rewrite IH.
  - apply lookup_insert_ne, Hne, list_elem_of_here.
  - intros char Hin. apply Hne. now apply list_elem_of_further.
Qed.

End Viewport.

(** C3: from a view box with [scale > 0], the plane point that is drawn at
    the screen point [(sx, sy)] is drawn there again after a zoom about
    [(sx, sy)], for every scale factor; so it is after a wheel event at
    [(sx, sy)] and after a two-finger move whose centre is [(sx, sy)]. *)
Theorem zoom_anchoring (prev : Plane.ViewBox) (sx sy wx wy : R) :
  0 < Plane.scale prev ->
  Plane.screenPosition prev wx wy = (sx, sy) ->
  (forall scaleFactor,
     exists vb,
       Plane.zoomUpdater scaleFactor sx sy prev = Some vb /\
       Plane.screenPosition vb wx wy = (sx, sy)) /\
  (forall isMobile deltaY st,
     Plane.viewBox st = prev ->
     exists st',
       Plane.handleWheel isMobile
         {| Plane.deltaY := deltaY; Plane.wheelX := sx; Plane.wheelY := sy |}
         st = Some st' /\
       Plane.screenPosition (Plane.viewBox st') wx wy = (sx, sy)) /\
  (forall isMobile t0 t1 st,
     Plane.viewBox st = prev ->
     Plane.pinchCentre t0 t1 = (sx, sy) ->
     exists st',
       Plane.handleTouchMove isMobile [t0; t1] st = Some st' /\
       Plane.screenPosition (Plane.viewBox st') wx wy = (sx, sy)).
Proof.
  intros Hscale Hpos.
  assert (Hne : Plane.scale prev <> 0) by lra.
  split; [|split].
  - intros scaleFactor.
    destruct (zoomUpdater_anchor scaleFactor sx sy prev wx wy Hne Hpos)
      as (vb & Hvb & _ & Hanchor).
    exists vb. split; assumption.
  - intros isMobile deltaY st <-.
    set (e := {| Plane.deltaY := deltaY; Plane.wheelX := sx;
                 Plane.wheelY := sy |}).
    destruct (zoomUpdater_anchor (Plane.wheelFactor isMobile e) sx sy
                (Plane.viewBox st) wx wy Hne Hpos)
      as (vb & Hvb & _ & Hanchor).
    exists (Plane.setViewBox vb st). split; [|exact Hanchor].
    now apply handleWheel_zoom.
  - intros isMobile t0 t1 st <- Hcentre.
    destruct (Plane.lastTouchDistance st) as [last|] eqn:Hlast.
    + destruct (Req_dec_T last 0) as [->|Hlast0].
      * rewrite handleTouchMove_record by (right; assumption).
        eexists. split; [reflexivity|exact Hpos].
      * destruct (zoomUpdater_anchor (Plane.pinchFactor t0 t1 last) sx sy
                    (Plane.viewBox st) wx wy Hne Hpos)
          as (vb & Hvb & _ & Hanchor).
        exists (Plane.setLastTouchDistance
                  (Some (Plane.pinchDistance t0 t1))
                  (Plane.setViewBox vb st)).
        split; [|exact Hanchor].
        apply handleTouchMove_zoom with last; [assumption..|].
        rewrite Hcentre. exact Hvb.
    + rewrite handleTouchMove_record by (left; assumption).
      eexists. split; [reflexivity|exact Hpos].
Qed.

Lemma zoom_anchoring_witness :
  let prev := {| Plane.x := 30; Plane.y := -20; Plane.scale := 2 |} in
  let st := {| Plane.viewBox := prev;
               Plane.characterPositions := [];
               Plane.searchInput := "";
               Plane.panStateRef := None;
               Plane.lastTouchDistance := Some 100 |} in
  let wheel := {| Plane.deltaY := 1;
                  Plane.wheelX := 1010; Plane.wheelY := 530 |} in
  let t0 := {| Plane.clientX := 935; Plane.clientY := 530 |} in
  let t1 := {| Plane.clientX := 1085; Plane.clientY := 530 |} in
  0 < Plane.scale prev /\
  Plane.screenPosition prev 10 5 = (1010, 530) /\
  Plane.viewBox st = prev /\
  Plane.pinchCentre t0 t1 = (1010, 530) /\
  Plane.zoomUpdater 0.86 1010 530 prev =
    Some {| Plane.x := 32.8; Plane.y := -18.6; Plane.scale := 1.72 |} /\
  (exists vb,
     Plane.zoomUpdater 0.86 1010 530 prev = Some vb /\
     Plane.screenPosition vb 10 5 = (1010, 530)) /\
  (exists st',
     Plane.handleWheel false wheel st = Some st' /\
     Plane.screenPosition (Plane.viewBox st') 10 5 = (1010, 530)) /\
  (exists st',
     Plane.handleTouchMove true [t0; t1] st = Some st' /\
     Plane.screenPosition (Plane.viewBox st') 10 5 = (1010, 530)).
Proof.
  intros prev st wheel t0 t1.
  assert (Hscale : 0 < Plane.scale prev) by (cbn; lra).
  assert (Hpos : Plane.screenPosition prev 10 5 = (1010, 530)).
  { unfold Plane.screenPosition, prev.
    cbn [Plane.x Plane.y Plane.scale Plane.centerX Plane.centerY
         Plane.FIXED_VIEWPORT].
    apply pair_equal_spec. split; lra. }
  assert (Hcentre : Plane.pinchCentre t0 t1 = (1010, 530)).
  { unfold Plane.pinchCentre, t0, t1. cbn [Plane.clientX Plane.clientY].
    apply pair_equal_spec. split; lra. }
  assert (Hmoved : Plane.zoomUpdater 0.86 1010 530 prev =
            Some {| Plane.x := 32.8; Plane.y := -18.6;
                    Plane.scale := 1.72 |}).
  { rewrite zoomUpdater_Some by (cbn; lra). apply f_equal.
    unfold prev.
    cbn [Plane.x Plane.y Plane.scale Plane.centerX Plane.centerY
         Plane.FIXED_VIEWPORT].
    apply f_equal3; lra. }
  destruct (zoom_anchoring prev 1010 530 10 5 Hscale Hpos)
    as (Hzoom & Hwheel & Htouch).
  split; [exact Hscale|]. split; [exact Hpos|]. split; [reflexivity|].
  split; [exact Hcentre|]. split; [exact Hmoved|].
  split; [exact (Hzoom 0.86)|].
  split; [exact (Hwheel false 1 st eq_refl)|].
  exact (Htouch true t0 t1 st eq_refl Hcentre).
Defined.

(** C4, as stated, fails: on a mobile device, from the initial state
    (scale 0.4), two fingers put down 100 apart and then moved to 25 apart
    set the scale to -0.2; the factor is neither clamped nor rejected. *)
Lemma pinch_scale_negative :
  let st1 :=
    Plane.handleTouchStart Plane.pinchStartTouches (Plane.initialState true) in
  0 < Plane.scale (Plane.viewBox st1) /\
  exists st2,
    Plane.handleTouchMove true Plane.pinchTouches st1 = Some st2 /\
    Plane.scale (Plane.viewBox st2) = -0.2.
Proof.
  intros st1.
  assert (Hlast : Plane.lastTouchDistance st1 = Some 100).
  { unfold st1, Plane.pinchStartTouches.
    cbn [Plane.handleTouchStart Plane.setLastTouchDistance
         Plane.lastTouchDistance Plane.clientX Plane.clientY].
    replace ((0 - 100) * (0 - 100) + (0 - 0) * (0 - 0)) with (100 * 100)
      by lra.
    rewrite sqrt_square by lra. reflexivity. }
  assert (Hd : Plane.pinchDistance {| Plane.clientX := 0; Plane.clientY := 0 |}
                 {| Plane.clientX := 25; Plane.clientY := 0 |} = 25).
  { unfold Plane.pinchDistance. cbn [Plane.clientX Plane.clientY].
    replace ((0 - 25) * (0 - 25) + (0 - 0) * (0 - 0)) with (25 * 25) by lra.
    apply sqrt_square. lra. }
  assert (Hscale : Plane.scale (Plane.viewBox st1) = 0.4) by reflexivity.
  split; [rewrite Hscale; lra|].
  eexists. split.
  - unfold Plane.pinchTouches.
    apply handleTouchMove_zoom with 100; [exact Hlast|lra|].
    apply zoomUpdater_Some. rewrite Hscale. lra.
  - cbn [Plane.viewBox Plane.setLastTouchDistance Plane.setViewBox Plane.scale].
    unfold Plane.pinchFactor. rewrite Hd, Hscale.
    cbn [Plane.ZOOM_SPEED Plane.mobile]. lra.
Qed.

(** C4 (amended): no zoom clamps or rejects a factor; from [scale > 0] a
    zoom sets the scale to [scale * scaleFactor], which is strictly
    positive exactly when the factor is.  A desktop wheel event (speed
    0.14) always leaves it strictly positive; a two-finger move with a
    previous distance [last > 0] leaves it strictly positive exactly when
    the new distance exceeds [last / 2]; a two-finger move with no previous
    distance (or a previous distance of 0) leaves the scale as it is. *)
Theorem zoom_scale_sign (st : Plane.State) :
  0 < Plane.scale (Plane.viewBox st) ->
  (forall scaleFactor pointX pointY,
     exists vb,
       Plane.zoomUpdater scaleFactor pointX pointY (Plane.viewBox st)
         = Some vb /\
       Plane.scale vb = Plane.scale (Plane.viewBox st) * scaleFactor /\
       (0 < Plane.scale vb <-> 0 < scaleFactor)) /\
  (forall isMobile e,
     exists st',
       Plane.handleWheel isMobile e st = Some st' /\
       Plane.scale (Plane.viewBox st') =
         Plane.scale (Plane.viewBox st) * Plane.wheelFactor isMobile e) /\
  (forall e,
     exists st',
       Plane.handleWheel false e st = Some st' /\
       0 < Plane.scale (Plane.viewBox st')) /\
  (forall isMobile t0 t1 last,
     Plane.lastTouchDistance st = Some last ->
     0 < last ->
     exists st',
       Plane.handleTouchMove isMobile [t0; t1] st = Some st' /\
       Plane.scale (Plane.viewBox st') =
         Plane.scale (Plane.viewBox st) * Plane.pinchFactor t0 t1 last /\
       (0 < Plane.scale (Plane.viewBox st') <->
        last < 2 * Plane.pinchDistance t0 t1)) /\
  (forall isMobile t0 t1,
     Plane.lastTouchDistance st = None \/
     Plane.lastTouchDistance st = Some 0 ->
     exists st',
       Plane.handleTouchMove isMobile [t0; t1] st = Some st' /\
       Plane.scale (Plane.viewBox st') = Plane.scale (Plane.viewBox st)).
Proof.
  intros Hscale.
  assert (Hne : Plane.scale (Plane.viewBox st) <> 0) by lra.
  assert (Hsign : forall f,
            0 < Plane.scale (Plane.viewBox st) * f <-> 0 < f).
  { intros f. split; intros H; nra. }
  split; [|split; [|split; [|split]]].
  - intros scaleFactor pointX pointY. eexists.
    split; [now apply zoomUpdater_Some|].
    cbn [Plane.scale]. split; [reflexivity|apply Hsign].
  - intros isMobile e. eexists. split.
    + apply handleWheel_zoom. now apply zoomUpdater_Some.
    + reflexivity.
  - intros e. eexists. split.
    + apply handleWheel_zoom. now apply zoomUpdater_Some.
    + cbn [Plane.viewBox Plane.setViewBox Plane.scale].
      apply Hsign, wheelFactor_desktop_pos.
  - intros isMobile t0 t1 last Hlast Hpos. eexists. split; [|split].
    + apply handleTouchMove_zoom with last; [assumption|lra|].
      now apply zoomUpdater_Some.
    + reflexivity.
    + cbn [Plane.viewBox Plane.setLastTouchDistance Plane.setViewBox
           Plane.scale].
      rewrite Hsign. now apply pinchFactor_pos.
  - intros isMobile t0 t1 Hlast. eexists.
    split; [now apply handleTouchMove_record|reflexivity].
Qed.

Lemma zoom_scale_sign_witness :
  0 < Plane.scale (Plane.viewBox Plane.pinchState) /\
  (forall e,
     exists st',
       Plane.handleWheel false e Plane.pinchState = Some st' /\
       0 < Plane.scale (Plane.viewBox st')) /\
  (forall isMobile t0 t1,
     exists st',
       Plane.handleTouchMove isMobile [t0; t1] Plane.pinchState = Some st' /\
       (0 < Plane.scale (Plane.viewBox st') <->
        100 < 2 * Plane.pinchDistance t0 t1)).
Proof.
  assert (Hscale : 0 < Plane.scale (Plane.viewBox Plane.pinchState))
    by (cbn; lra).
  destruct (zoom_scale_sign Plane.pinchState Hscale)
    as (_ & _ & Hwheel & Hpinch & _).
  split; [exact Hscale|]. split; [exact Hwheel|].
  intros isMobile t0 t1.
  destruct (Hpinch isMobile t0 t1 100 eq_refl ltac:(lra))
    as (st' & Hst' & _ & Hiff).
  exists st'. split; assumption.
Defined.

(** C7: when the search input is the identity of no placed entity, the
    search raises the not-found alert and leaves the state, and so the view
    box, as it is; no animation is requested. *)
Theorem search_not_found (st : Plane.State) :
  (forall char,
     char ∈ Plane.characterPositions st ->
     Worker.walletAddress char <> Plane.searchInput st) ->
  Plane.handleSearch st = (st, [Plane.Alert "Character not found"]).
Proof.
  intros Hmiss. unfold Plane.handleSearch, Plane.characterIndex.
  rewrite characterIndex_miss by assumption.
  rewrite lookup_empty. reflexivity.
Qed.

Lemma search_not_found_witness :
  (forall char,
     char ∈ Plane.characterPositions Plane.searchState ->
     Worker.walletAddress char <> Plane.searchInput Plane.searchState) /\
  Plane.handleSearch Plane.searchState =
    (Plane.searchState, [Plane.Alert "Character not found"]).
Proof.
  assert (Hmiss : forall char,
            char ∈ Plane.characterPositions Plane.searchState ->
            Worker.walletAddress char <> Plane.searchInput Plane.searchState).
  { intros char Hin. apply list_elem_of_singleton in Hin. subst char.
    discriminate. }
  split; [exact Hmiss|].
  exact (search_not_found Plane.searchState Hmiss).
Defined.

(** A search for the identity of a placed entity requests the animation
    towards it instead. *)
Example search_found :
  Plane.handleSearch
    {| Plane.viewBox := Plane.viewBox Plane.searchState;
       Plane.characterPositions := Plane.characterPositions Plane.searchState;
       Plane.searchInput := "A";
       Plane.panStateRef := None;
       Plane.lastTouchDistance := None |} =
  ({| Plane.viewBox := Plane.viewBox Plane.searchState;
      Plane.characterPositions := Plane.characterPositions Plane.searchState;
      Plane.searchInput := "A";
      Plane.panStateRef := None;
      Plane.lastTouchDistance := None |},
   [Plane.Animate (Plane.viewBox Plane.searchState)
      {| Plane.x := - (0 * cos 0) - 100;
         Plane.y := - (0 * sin 0) - 50;
         Plane.scale := 1 |}]).
Proof.
  unfold Plane.handleSearch, Plane.characterIndex.
  cbn [Plane.characterPositions Plane.searchState Plane.searchInput fold_left].
  rewrite lookup_insert_eq. reflexivity.
Qed.

(** C8: the culling filter depends on the plane position and the view box
    alone; it projects the position to
    [screenX = centerX + offsetX + x * scale] (and likewise for Y) and
    answers true exactly when [(screenX, screenY)] lies in
    [[-margin, W + margin] x [-margin, H + margin]], with margin 800 on a
    mobile device and 500 on a desktop. *)
Theorem isCharacterVisible_iff
    (isMobile : bool) (viewBox : Plane.ViewBox) (x y : R) :
  let margin := if isMobile then 800 else 500 in
  let W := Plane.width Plane.FIXED_VIEWPORT in
  let H := Plane.height Plane.FIXED_VIEWPORT in
  let screenX :=
    Plane.centerX Plane.FIXED_VIEWPORT + Plane.x viewBox
    + x * Plane.scale viewBox in
  let screenY :=
    Plane.centerY Plane.FIXED_VIEWPORT + Plane.y viewBox
    + y * Plane.scale viewBox in
  Plane.isCharacterVisible isMobile viewBox x y = true <->
  (- margin <= screenX <= W + margin) /\ (- margin <= screenY <= H + margin).
Proof.
  cbv zeta. unfold Plane.isCharacterVisible, Plane.screenPosition.
  cbv zeta. rewrite !andb_true_iff. unfold js_ge, js_le.
  set (m := if isMobile then Plane.mobile Plane.CULLING_MARGIN
            else Plane.desktop Plane.CULLING_MARGIN).
  assert (Hm : m = if isMobile then 800 else 500)
    by (unfold m; now destruct isMobile).
  rewrite <- Hm.
  repeat match goal with
         | |- context [Rge_dec ?a ?b] => destruct (Rge_dec a b)
         | |- context [Rle_dec ?a ?b] => destruct (Rle_dec a b)
         end;
    split; intros H; try lra;
    repeat match goal with
           | H : _ /\ _ |- _ => destruct H
           end;
    try discriminate; repeat split; try reflexivity; lra.
Qed.

(** * Further properties of the code *)

(** ** Panning *)

(** X1: a press with the main button followed by a pointer move sets the
    offset to the offset at the press plus the pointer displacement times
    the pan speed (1.5 on a desktop, 3.5 on a mobile device) and keeps the
    scale; every plane point therefore moves on the screen by that
    multiple of the displacement, and a later move replaces the effect of
    an earlier one instead of adding to it. *)
Theorem pan_drag (isMobile : bool) (press move : Plane.Point)
    (st : Plane.State) :
  let speed :=
    if isMobile then Plane.mobile Plane.PAN_SPEED
    else Plane.desktop Plane.PAN_SPEED in
  let dx := (Plane.clientX move - Plane.clientX press) * speed in
  let dy := (Plane.clientY move - Plane.clientY press) * speed in
  let st1 := Plane.handleMouseDown 0 press st in
  let st2 := Plane.handlePointerMove isMobile move st1 in
  Plane.viewBox st2 =
    {| Plane.x := Plane.x (Plane.viewBox st) + dx;
       Plane.y := Plane.y (Plane.viewBox st) + dy;
       Plane.scale := Plane.scale (Plane.viewBox st) |} /\
  (forall px py,
     Plane.screenPosition (Plane.viewBox st2) px py =
     (fst (Plane.screenPosition (Plane.viewBox st) px py) + dx,
      snd (Plane.screenPosition (Plane.viewBox st) px py) + dy)) /\
  (forall move',
     Plane.handlePointerMove isMobile move' st2 =
     Plane.handlePointerMove isMobile move' st1).
Proof.
  cbv zeta. split; [reflexivity|]. split.
  - intros px py. unfold Plane.screenPosition.
    cbn [Plane.handleMouseDown Plane.handlePointerMove Plane.setPanStateRef
         Plane.setViewBox Plane.viewBox Plane.panStateRef Plane.isPanning
         Plane.x Plane.y Plane.scale Plane.startX Plane.startY
         Plane.startViewBoxX Plane.startViewBoxY Z.eqb fst snd].
    apply pair_equal_spec. split; ring.
  - intros move'. reflexivity.
Qed.

(** X2: a pointer move changes the view only during a pan: with no pan
    state, after a release and after the end of a touch it returns the
    state as it is; a press with another button than the main one starts
    nothing. *)
Theorem pan_inactive (isMobile : bool) (e : Plane.Point) (st : Plane.State) :
  (Plane.panStateRef st = None ->
   Plane.handlePointerMove isMobile e st = st) /\
  Plane.handlePointerMove isMobile e (Plane.handleMouseUp st) =
    Plane.handleMouseUp st /\
  Plane.handlePointerMove isMobile e (Plane.handleTouchEnd st) =
    Plane.handleTouchEnd st /\
  Plane.handleTouchMove isMobile [e] (Plane.handleTouchEnd st) =
    Some (Plane.handleTouchEnd st) /\
  (forall button, button <> 0%Z -> Plane.handleMouseDown button e st = st).
Proof.
  assert (Hup : forall s,
            Plane.handlePointerMove isMobile e (Plane.handleMouseUp s) =
            Plane.handleMouseUp s).
  { intros s. unfold Plane.handleMouseUp, Plane.handlePointerMove.
    destruct (Plane.panStateRef s) as [p|] eqn:Hp.
    - reflexivity.
    - now rewrite Hp. }
  split; [|split; [|split; [|split]]].
  - intros Hnone. unfold Plane.handlePointerMove. now rewrite Hnone.
  - apply Hup.
  - unfold Plane.handleTouchEnd. apply Hup.
  - unfold Plane.handleTouchEnd. cbn [Plane.handleTouchMove].
    now rewrite Hup.
  - intros button Hb. unfold Plane.handleMouseDown.
    destruct (Z.eqb_spec button 0); [contradiction|reflexivity].
Qed.

Lemma pan_inactive_witness :
  Plane.panStateRef (Plane.initialState false) = None /\
  Plane.handlePointerMove false
    {| Plane.clientX := 10; Plane.clientY := 20 |} (Plane.initialState false)
  = Plane.initialState false.
Proof.
  split; [reflexivity|].
  exact (proj1 (pan_inactive false {| Plane.clientX := 10; Plane.clientY := 20 |}
                  (Plane.initialState false)) eq_refl).
Defined.

(** ** Zooming *)

Lemma viewBox_eq (a b : Plane.ViewBox) :
  Plane.x a = Plane.x b -> Plane.y a = Plane.y b ->
  Plane.scale a = Plane.scale b -> a = b.
Proof. destruct a, b. cbn. now intros -> -> ->. Qed.

Lemma zoomUpdater_one pointX pointY prev :
  Plane.scale prev <> 0 ->
  Plane.zoomUpdater 1 pointX pointY prev = Some prev.
Proof.
  intros Hs. rewrite zoomUpdater_Some by assumption. f_equal.
  apply viewBox_eq; cbn [Plane.x Plane.y Plane.scale]; field; assumption.
Qed.

Lemma zoomUpdater_twice f g pointX pointY prev :
  Plane.scale prev <> 0 ->
  f <> 0 ->
  (Plane.zoomUpdater f pointX pointY prev
     ≫= Plane.zoomUpdater g pointX pointY) =
  Plane.zoomUpdater (f * g) pointX pointY prev.
Proof.
  intros Hs Hf. rewrite (zoomUpdater_Some f) by assumption.
  cbn [mbind option_bind].
  rewrite zoomUpdater_Some
    by (cbn [Plane.scale]; now apply Rmult_integral_contrapositive_currified).
  rewrite zoomUpdater_Some by assumption. f_equal.
  apply viewBox_eq; cbn [Plane.x Plane.y Plane.scale]; field;
    split; assumption.
Qed.

(** X3: zooms about one screen point compose: from a view box of non-zero
    scale, a zoom by [f] (not 0) followed by a zoom by [g] about the same
    point gives the view box of a single zoom by [f * g]; a zoom by 1
    changes nothing, and a zoom by [f] followed by one by [1 / f] gives
    back the view box. *)
Theorem zoom_compose (prev : Plane.ViewBox) (f g pointX pointY : R) :
  Plane.scale prev <> 0 ->
  f <> 0 ->
  Plane.zoomUpdater 1 pointX pointY prev = Some prev /\
  (Plane.zoomUpdater f pointX pointY prev
     ≫= Plane.zoomUpdater g pointX pointY) =
    Plane.zoomUpdater (f * g) pointX pointY prev /\
  (Plane.zoomUpdater f pointX pointY prev
     ≫= Plane.zoomUpdater (1 / f) pointX pointY) = Some prev.
Proof.
  intros Hs Hf.
  split; [now apply zoomUpdater_one|]. split; [now apply zoomUpdater_twice|].
  rewrite zoomUpdater_twice by assumption.
  replace (f * (1 / f)) with 1 by (field; assumption).
  now apply zoomUpdater_one.
Qed.

Lemma zoom_compose_witness :
  let prev := {| Plane.x := 0; Plane.y := 0; Plane.scale := 1 |} in
  Plane.scale prev <> 0 /\ 2 <> 0 /\
  (Plane.zoomUpdater 2 10 20 prev ≫= Plane.zoomUpdater 3 10 20) =
    Plane.zoomUpdater (2 * 3) 10 20 prev.
Proof.
  intros prev.
  assert (Hs : Plane.scale prev <> 0) by (cbn; lra).
  assert (Hf : 2 <> 0) by lra.
  split; [exact Hs|]. split; [exact Hf|].
  exact (proj1 (proj2 (zoom_compose prev 2 3 10 20 Hs Hf))).
Defined.

(** X4: on a desktop a wheel step down ([deltaY > 0]) followed by a wheel
    step up ([deltaY < 0]) at the same point does not give back the view:
    the scale ends at 0.9804 times its value (0.86 * 1.14), the offset
    at that of a single zoom by 0.9804 about the point. *)
Theorem wheel_down_up_shrinks (st : Plane.State) (down up : Plane.WheelEvent) :
  Plane.scale (Plane.viewBox st) <> 0 ->
  0 < Plane.deltaY down ->
  Plane.deltaY up < 0 ->
  Plane.wheelX up = Plane.wheelX down ->
  Plane.wheelY up = Plane.wheelY down ->
  exists st1 st2 vb,
    Plane.handleWheel false down st = Some st1 /\
    Plane.handleWheel false up st1 = Some st2 /\
    Plane.zoomUpdater 0.9804 (Plane.wheelX down) (Plane.wheelY down)
      (Plane.viewBox st) = Some vb /\
    Plane.viewBox st2 = vb /\
    Plane.scale (Plane.viewBox st2) = Plane.scale (Plane.viewBox st) * 0.9804.
Proof.
  intros Hs Hdown Hup HX HY.
  assert (Hfd : Plane.wheelFactor false down = 0.86).
  { unfold Plane.wheelFactor, Math_sign. cbn [Plane.ZOOM_SPEED Plane.desktop].
    destruct (Rlt_dec 0 (Plane.deltaY down)); [lra|contradiction]. }
  assert (Hfu : Plane.wheelFactor false up = 1.14).
  { unfold Plane.wheelFactor, Math_sign. cbn [Plane.ZOOM_SPEED Plane.desktop].
    destruct (Rlt_dec 0 (Plane.deltaY up)); [lra|].
    destruct (Rlt_dec (Plane.deltaY up) 0); [lra|contradiction]. }
  pose proof (zoomUpdater_twice 0.86 1.14
                (Plane.wheelX down) (Plane.wheelY down) (Plane.viewBox st)
                Hs ltac:(lra)) as Hcomp.
  replace (0.86 * 1.14) with 0.9804 in Hcomp by lra.
  rewrite (zoomUpdater_Some 0.86) in Hcomp by assumption.
  cbn [mbind option_bind] in Hcomp.
  rewrite (zoomUpdater_Some 0.9804) in Hcomp by assumption.
  eexists _, _, _. split; [|split; [|split; [|split]]].
  - apply handleWheel_zoom. rewrite Hfd. now apply zoomUpdater_Some.
  - apply handleWheel_zoom. rewrite Hfu, HX, HY.
    cbn [Plane.viewBox Plane.setViewBox]. exact Hcomp.
  - now apply zoomUpdater_Some.
  - reflexivity.
  - reflexivity.
Qed.

Lemma wheel_down_up_shrinks_witness :
  let down := {| Plane.deltaY := 1; Plane.wheelX := 0; Plane.wheelY := 0 |} in
  let up := {| Plane.deltaY := -1; Plane.wheelX := 0; Plane.wheelY := 0 |} in
  exists st1 st2,
    Plane.handleWheel false down (Plane.initialState false) = Some st1 /\
    Plane.handleWheel false up st1 = Some st2 /\
    Plane.scale (Plane.viewBox st2) = 0.2 * 0.9804.
Proof.
  intros down up.
  destruct (wheel_down_up_shrinks (Plane.initialState false) down up)
    as (st1 & st2 & vb & H1 & H2 & _ & _ & Hscale);
    [cbn; lra | cbn; lra | cbn; lra | reflexivity | reflexivity |].
  exists st1, st2. split; [exact H1|]. split; [exact H2|exact Hscale].
Defined.

(** X5: a two-finger move that halves the previous distance [last > 0]
    sets the scale to 0 (the factor is [1 + 2 * (1/2 - 1) = 0]); from then
    on every wheel event and every further two-finger move divides by the
    zero scale. *)
Theorem pinch_half_kills_scale (isMobile : bool) (t0 t1 : Plane.Point)
    (last : R) (st : Plane.State) :
  Plane.scale (Plane.viewBox st) <> 0 ->
  Plane.lastTouchDistance st = Some last ->
  0 < last ->
  Plane.pinchDistance t0 t1 = last / 2 ->
  exists st',
    Plane.handleTouchMove isMobile [t0; t1] st = Some st' /\
    Plane.scale (Plane.viewBox st') = 0 /\
    (forall isMobile' e, Plane.handleWheel isMobile' e st' = None) /\
    (forall isMobile' t0' t1',
       Plane.handleTouchMove isMobile' [t0'; t1'] st' = None).
Proof.
  intros Hs Hlast Hpos Hd.
  assert (Hf : Plane.pinchFactor t0 t1 last = 0).
  { unfold Plane.pinchFactor. rewrite Hd. cbn [Plane.ZOOM_SPEED Plane.mobile].
    field. lra. }
  eexists. split; [|split; [|split]].
  - apply handleTouchMove_zoom with last; [assumption|lra|].
    now apply zoomUpdater_Some.
  - cbn [Plane.viewBox Plane.setLastTouchDistance Plane.setViewBox Plane.scale].
    rewrite Hf. ring.
  - intros isMobile' e. unfold Plane.handleWheel, Plane.zoomUpdater.
    cbn [Plane.viewBox Plane.setLastTouchDistance Plane.setViewBox Plane.scale].
    rewrite Hf, Rmult_0_r, !js_div_zero. reflexivity.
  - intros isMobile' t0' t1'. unfold Plane.handleTouchMove.
    cbn [Plane.lastTouchDistance Plane.setLastTouchDistance].
    rewrite Hd. destruct (Req_dec_T (last / 2) 0) as [H0|_]; [lra|].
    rewrite js_div_Some by lra. cbn [mbind option_bind].
    unfold Plane.zoomUpdater.
    cbn [Plane.viewBox Plane.setLastTouchDistance Plane.setViewBox Plane.scale].
    rewrite Hf, Rmult_0_r, !js_div_zero. reflexivity.
Qed.

Lemma pinch_half_kills_scale_witness :
  exists st',
    Plane.handleTouchMove true
      [ {| Plane.clientX := 0; Plane.clientY := 0 |};
        {| Plane.clientX := 50; Plane.clientY := 0 |} ] Plane.pinchState
    = Some st' /\
    Plane.scale (Plane.viewBox st') = 0.
Proof.
  destruct (pinch_half_kills_scale true
              {| Plane.clientX := 0; Plane.clientY := 0 |}
              {| Plane.clientX := 50; Plane.clientY := 0 |} 100
              Plane.pinchState) as (st' & H1 & H2 & _).
  - cbn. lra.
  - reflexivity.
  - lra.
  - unfold Plane.pinchDistance. cbn [Plane.clientX Plane.clientY].
    replace ((0 - 50) * (0 - 50) + (0 - 0) * (0 - 0)) with (50 * 50) by lra.
    rewrite sqrt_square by lra. lra.
  - exists st'. split; assumption.
Defined.

(** X6: putting two fingers down and moving them without changing their
    distance leaves the view box as it is (whether the fingers are apart,
    factor 1, or on the same spot, where the zero distance is skipped). *)
Theorem pinch_same_distance (isMobile : bool) (s0 s1 t0 t1 : Plane.Point)
    (st : Plane.State) :
  Plane.scale (Plane.viewBox st) <> 0 ->
  Plane.pinchDistance t0 t1 = Plane.pinchDistance s0 s1 ->
  exists st',
    Plane.handleTouchMove isMobile [t0; t1]
      (Plane.handleTouchStart [s0; s1] st) = Some st' /\
    Plane.viewBox st' = Plane.viewBox st.
Proof.
  intros Hs Hd.
  set (st1 := Plane.handleTouchStart [s0; s1] st).
  assert (Hlast : Plane.lastTouchDistance st1 =
                  Some (Plane.pinchDistance s0 s1)) by reflexivity.
  assert (Hvb : Plane.viewBox st1 = Plane.viewBox st) by reflexivity.
  destruct (Req_dec_T (Plane.pinchDistance s0 s1) 0) as [H0|Hne].
  - rewrite handleTouchMove_record by (right; now rewrite Hlast, H0).
    eexists. split; [reflexivity|exact Hvb].
  - assert (Hf : Plane.pinchFactor t0 t1 (Plane.pinchDistance s0 s1) = 1).
    { unfold Plane.pinchFactor. rewrite Hd. field. assumption. }
    assert (Hone := zoomUpdater_one
                      (fst (Plane.pinchCentre t0 t1))
                      (snd (Plane.pinchCentre t0 t1)) (Plane.viewBox st1) Hs).
    eexists. split.
    + apply handleTouchMove_zoom with (Plane.pinchDistance s0 s1);
        [exact Hlast|exact Hne|]. rewrite Hf. exact Hone.
    + reflexivity.
Qed.

Lemma pinch_same_distance_witness :
  exists st',
    Plane.handleTouchMove true Plane.pinchStartTouches
      (Plane.handleTouchStart Plane.pinchStartTouches (Plane.initialState true))
    = Some st' /\
    Plane.viewBox st' = Plane.viewBox (Plane.initialState true).
Proof.
  apply (pinch_same_distance true
           {| Plane.clientX := 0; Plane.clientY := 0 |}
           {| Plane.clientX := 100; Plane.clientY := 0 |}
           {| Plane.clientX := 0; Plane.clientY := 0 |}
           {| Plane.clientX := 100; Plane.clientY := 0 |}
           (Plane.initialState true)).
  - cbn. lra.
  - reflexivity.
Defined.

(** ** Search and the animation *)

Lemma characterIndex_last (l : list Worker.CharacterPosition) (k : string) :
  Plane.characterIndex l !! k =
  last (filter (fun char => Worker.walletAddress char = k) l).
Proof.
  unfold Plane.characterIndex.
  induction l as [|c l IH] using rev_ind; [apply lookup_empty|].
  rewrite fold_left_app, filter_app, last_app. cbn [fold_left].
  destruct (decide (Worker.walletAddress c = k)) as [Hk|Hk].
  - rewrite Hk, lookup_insert_eq.
    rewrite filter_cons_True by assumption. reflexivity.
  - rewrite lookup_insert_ne, IH by assumption.
    rewrite filter_cons_False by assumption. cbn [filter last list_filter].
    now destruct (last _).
Qed.

(** X7: the index that the search reads maps an identity to the last
    placed character with that identity (a later one replaces an earlier
    one) and to nothing exactly when no placed character has it. *)
Theorem characterIndex_lookup
    (l : list Worker.CharacterPosition) (k : string) :
  Plane.characterIndex l !! k =
    last (filter (fun char => Worker.walletAddress char = k) l) /\
  (Plane.characterIndex l !! k = None <->
   forall char, char ∈ l -> Worker.walletAddress char <> k) /\
  (forall l1 c l2,
     l = l1 ++ c :: l2 ->
     Worker.walletAddress c = k ->
     (forall char, char ∈ l2 -> Worker.walletAddress char <> k) ->
     Plane.characterIndex l !! k = Some c).
Proof.
  split; [apply characterIndex_last|]. split.
  - rewrite characterIndex_last. split.
    + intros Hnone char Hin Hk.
      assert (Hf : char ∈ filter (fun c => Worker.walletAddress c = k) l)
        by (apply list_elem_of_filter; split; assumption).
      destruct (filter _ l) as [|a f] using rev_ind.
      * now apply not_elem_of_nil in Hf.
      * rewrite last_snoc in Hnone. discriminate.
    + intros Hmiss.
      destruct (last _) as [c|] eqn:Hlast; [|reflexivity].
      apply last_Some in Hlast. destruct Hlast as (l' & Hl').
      assert (Hc : c ∈ filter (fun c => Worker.walletAddress c = k) l).
      { rewrite Hl'. apply elem_of_app. right. apply list_elem_of_here. }
      apply list_elem_of_filter in Hc. destruct Hc as [Hk Hin].
      now destruct (Hmiss c Hin).
  - intros l1 c l2 -> Hk Hl2. rewrite characterIndex_last.
    rewrite filter_app, filter_cons_True by assumption.
    rewrite last_app. cbn [last].
    assert (Hnil : filter (fun c => Worker.walletAddress c = k) l2 = []).
    { induction l2 as [|a l2 IH]; [reflexivity|].
      rewrite filter_cons_False by (apply Hl2, list_elem_of_here).
      apply IH. intros char Hin. apply Hl2. now apply list_elem_of_further. }
    rewrite Hnil. reflexivity.
Qed.

Lemma animate_end start target elapsed :
  1000 <= elapsed -> Plane.animate start target elapsed = target.
Proof.
  intros He. unfold Plane.animate. cbv zeta.
  rewrite Rmin_right by lra.
  apply viewBox_eq; cbn [Plane.x Plane.y Plane.scale]; ring.
Qed.

(** X8: a search for an identity that the index holds requests the
    animation from the current view box to offset [(-x - 100, -y - 50)]
    and scale 1 of the character found, raises no alert and leaves the
    state as it is; a frame at 1000 ms or later sets exactly that view
    box and requests no further frame; there the character is drawn at
    the screen point [(860, 490)], inside the culling box of either
    device class. *)
Theorem search_found_centres (isMobile : bool) (st : Plane.State)
    (c : Worker.CharacterPosition) :
  last (filter (fun char => Worker.walletAddress char = Plane.searchInput st)
          (Plane.characterPositions st)) = Some c ->
  let target := {| Plane.x := - Worker.x c - 100;
                   Plane.y := - Worker.y c - 50;
                   Plane.scale := 1 |} in
  Plane.handleSearch st = (st, [Plane.Animate (Plane.viewBox st) target]) /\
  (forall elapsed,
     1000 <= elapsed ->
     Plane.animate (Plane.viewBox st) target elapsed = target /\
     animateContinues elapsed = false) /\
  Plane.screenPosition target (Worker.x c) (Worker.y c) = (860, 490) /\
  Plane.isCharacterVisible isMobile target (Worker.x c) (Worker.y c) = true.
Proof.
  intros Hlast target.
  assert (Hpos : Plane.screenPosition target (Worker.x c) (Worker.y c)
                 = (860, 490)).
  { unfold Plane.screenPosition, target.
    cbn [Plane.x Plane.y Plane.scale Plane.centerX Plane.centerY
         Plane.FIXED_VIEWPORT].
    apply pair_equal_spec. split; lra. }
  split; [|split; [|split]].
  - unfold Plane.handleSearch. rewrite characterIndex_last, Hlast.
    reflexivity.
  - intros elapsed He. split; [now apply animate_end|].
    unfold animateContinues, js_lt. cbv zeta. rewrite Rmin_right by lra.
    destruct (Rlt_dec 1 1); [lra|reflexivity].
  - exact Hpos.
  - unfold Plane.isCharacterVisible. rewrite Hpos.
    unfold js_ge, js_le.
    cbn [Plane.width Plane.height Plane.FIXED_VIEWPORT Plane.CULLING_MARGIN
         Plane.mobile Plane.desktop].
    destruct isMobile;
      repeat match goal with
             | |- context [Rge_dec ?a ?b] => destruct (Rge_dec a b); [|lra]
             | |- context [Rle_dec ?a ?b] => destruct (Rle_dec a b); [|lra]
             end; reflexivity.
Qed.

Lemma search_found_centres_witness :
  let st := {| Plane.viewBox := Plane.initialViewBox false;
               Plane.characterPositions := [Worker.placed Worker.holderA 0 0];
               Plane.searchInput := "A";
               Plane.panStateRef := None;
               Plane.lastTouchDistance := None |} in
  let c := Worker.placed Worker.holderA 0 0 in
  Plane.handleSearch st =
    (st, [Plane.Animate (Plane.viewBox st)
            {| Plane.x := - Worker.x c - 100;
               Plane.y := - Worker.y c - 50;
               Plane.scale := 1 |}]).
Proof.
  intros st c.
  exact (proj1 (search_found_centres false st c eq_refl)).
Defined.

Lemma cube_le (a b : R) : 0 <= b <= a -> b ^ 3 <= a ^ 3.
Proof.
  intros [Hb Hab]. apply pow_incr. split; assumption.
Qed.

Lemma Rmin_le_mono (a b c : R) : a <= b -> Rmin a c <= Rmin b c.
Proof.
  intros Hab. apply Rmin_glb; [|apply Rmin_r].
  apply Rle_trans with a; [apply Rmin_l|exact Hab].
Qed.

(** X9: every frame of the animation sets each of offset and scale to
    [start + (target - start) * w] with the cubic ease-out weight
    [w = 1 - (1 - min (elapsed / 1000) 1) ^ 3].  The weight never
    decreases with the elapsed time; it lies in [0, 1] when the elapsed
    time is not negative, is at least the linear progress
    [elapsed / 1000] up to 1000 ms (7/8 at 500 ms), is 1 from 1000 ms on,
    and is negative for a negative elapsed time (progress is clamped above
    only); another frame is requested exactly when the elapsed time is
    below 1000 ms. *)
Theorem animate_weight (start target : Plane.ViewBox) (elapsed : R) :
  let weight := fun t : R => 1 - (1 - Rmin (t / 1000) 1) ^ 3 in
  Plane.animate start target elapsed =
    {| Plane.x :=
         Plane.x start + (Plane.x target - Plane.x start) * weight elapsed;
       Plane.y :=
         Plane.y start + (Plane.y target - Plane.y start) * weight elapsed;
       Plane.scale :=
         Plane.scale start
         + (Plane.scale target - Plane.scale start) * weight elapsed |} /\
  (forall later, elapsed <= later -> weight elapsed <= weight later) /\
  (0 <= elapsed -> 0 <= weight elapsed <= 1) /\
  (0 <= elapsed <= 1000 -> elapsed / 1000 <= weight elapsed) /\
  (elapsed = 500 -> weight elapsed = 7 / 8) /\
  (1000 <= elapsed -> weight elapsed = 1) /\
  (elapsed < 0 -> weight elapsed < 0) /\
  (animateContinues elapsed = true <-> elapsed < 1000).
Proof.
  intros weight. unfold weight.
  assert (Hcube : forall p, 1 - (1 - p) ^ 3 = p * (p * p - 3 * p + 3))
    by (intros p; ring).
  split; [reflexivity|].
  split; [|split; [|split; [|split; [|split; [|split]]]]].
  - intros later Hlater.
    assert (Hmin : Rmin (elapsed / 1000) 1 <= Rmin (later / 1000) 1)
      by (apply Rmin_le_mono; lra).
    pose proof (Rmin_r (later / 1000) 1) as Hone.
    pose proof (cube_le (1 - Rmin (elapsed / 1000) 1)
                  (1 - Rmin (later / 1000) 1)) as Hle.
    lra.
  - intros He. apply Rmin_case_strong; intros Hp.
    + assert (0 <= elapsed / 1000) by lra.
      set (p := elapsed / 1000) in *. rewrite Hcube.
      split; [nra|].
      assert (0 <= (1 - p) ^ 3) by (apply pow_le; lra).
      rewrite <- Hcube. lra.
    + replace (1 - (1 - 1) ^ 3) with 1 by ring. lra.
  - intros [He0 He1]. rewrite Rmin_left by lra.
    set (p := elapsed / 1000). assert (Hp : 0 <= p <= 1) by (unfold p; lra).
    clearbody p. rewrite Hcube.
    assert (Hq : 1 <= p * p - 3 * p + 3) by nra.
    replace p with (p * 1) at 1 by ring.
    apply Rmult_le_compat_l; [lra|exact Hq].
  - intros ->. replace (500 / 1000) with (1 / 2) by lra.
    rewrite Rmin_left by lra. lra.
  - intros He. rewrite Rmin_right by lra. ring.
  - intros He. rewrite Rmin_left by lra.
    set (p := elapsed / 1000). assert (Hp : p < 0) by (unfold p; lra).
    rewrite Hcube. nra.
  - unfold animateContinues, js_lt. cbv zeta.
    destruct (Rlt_dec (Rmin (elapsed / 1000) 1) 1) as [Hlt|Hge].
    + split; [intros _|reflexivity].
      revert Hlt. apply Rmin_case_strong; intros; lra.
    + split; [discriminate|]. intros He. exfalso. apply Hge.
      rewrite Rmin_left by lra. lra.
Qed.

Lemma animate_weight_witness :
  let start := {| Plane.x := 0; Plane.y := 0; Plane.scale := 0.4 |} in
  let target := {| Plane.x := -900; Plane.y := -50; Plane.scale := 1 |} in
  (500 <= 1000) /\ (0 <= 500 <= 1000) /\
  Plane.animate start target 500 =
    {| Plane.x := 0 + (-900 - 0) * (1 - (1 - Rmin (500 / 1000) 1) ^ 3);
       Plane.y := 0 + (-50 - 0) * (1 - (1 - Rmin (500 / 1000) 1) ^ 3);
       Plane.scale :=
         0.4 + (1 - 0.4) * (1 - (1 - Rmin (500 / 1000) 1) ^ 3) |} /\
  1 - (1 - Rmin (500 / 1000) 1) ^ 3 = 7 / 8 /\
  500 / 1000 <= 1 - (1 - Rmin (500 / 1000) 1) ^ 3 /\
  1 - (1 - Rmin (500 / 1000) 1) ^ 3 <= 1 - (1 - Rmin (1000 / 1000) 1) ^ 3.
Proof.
  intros start target.
  assert (H1 : 500 <= 1000) by lra.
  assert (H2 : 0 <= 500 <= 1000) by lra.
  destruct (animate_weight start target 500)
    as (Hframe & Hmono & _ & Hlinear & Hhalf & _).
  split; [exact H1|]. split; [exact H2|]. split; [exact Hframe|].
  split; [exact (Hhalf eq_refl)|]. split; [exact (Hlinear H2)|].
  exact (Hmono 1000 H1).
Defined.

(** ** Culling *)

Lemma isCharacterVisible_box isMobile vb x y :
  Plane.isCharacterVisible isMobile vb x y = true <->
  let m := if isMobile then 800 else 500 in
  let '(sx, sy) := Plane.screenPosition vb x y in
  (- m <= sx <= 1920 + m) /\ (- m <= sy <= 1080 + m).
Proof.
  unfold Plane.isCharacterVisible.
  destruct (Plane.screenPosition vb x y) as [sx sy]. cbv zeta.
  rewrite !andb_true_iff. unfold js_ge, js_le.
  cbn [Plane.width Plane.height Plane.FIXED_VIEWPORT Plane.CULLING_MARGIN
       Plane.mobile Plane.desktop].
  destruct isMobile;
    repeat match goal with
           | |- context [Rge_dec ?a ?b] => destruct (Rge_dec a b)
           | |- context [Rle_dec ?a ?b] => destruct (Rle_dec a b)
           end;
    split; intros H; try lra;
    repeat match goal with
           | H : _ /\ _ |- _ => destruct H
           end;
    try discriminate; repeat split; try reflexivity; lra.
Qed.

Lemma isCharacterVisible_desktop_mobile vb x y :
  Plane.isCharacterVisible false vb x y = true ->
  Plane.isCharacterVisible true vb x y = true.
Proof.
  rewrite !isCharacterVisible_box. cbv zeta.
  destruct (Plane.screenPosition vb x y) as [sx sy]. lra.
Qed.

Lemma filter_sublist_mono {A} (P Q : A -> Prop)
    `{!forall a, Decision (P a)} `{!forall a, Decision (Q a)} (l : list A) :
  (forall a, P a -> Q a) -> filter P l `sublist_of` filter Q l.
Proof.
  intros HPQ. induction l as [|a l IH]; [constructor|].
  destruct (decide (P a)) as [HP|HP].
  - rewrite (filter_cons_True P) by assumption.
    rewrite (filter_cons_True Q) by auto. now constructor.
  - rewrite (filter_cons_False P) by assumption.
    destruct (decide (Q a)) as [HQ|HQ].
    + rewrite (filter_cons_True Q) by assumption. now constructor.
    + rewrite (filter_cons_False Q) by assumption. exact IH.
Qed.

(** X10: the characters handed to the renderer are the placed characters
    inside the culling box, in their order; the characters visible with
    the desktop margin (500) are among those visible with the mobile
    margin (800) for the same view box. *)
Theorem visibleCharacters_sublists (st : Plane.State) :
  Plane.visibleCharacters false st `sublist_of`
    Plane.visibleCharacters true st /\
  (forall isMobile,
     Plane.visibleCharacters isMobile st `sublist_of`
       Plane.characterPositions st) /\
  (forall isMobile char,
     char ∈ Plane.visibleCharacters isMobile st <->
     char ∈ Plane.characterPositions st /\
     let m := if isMobile then 800 else 500 in
     let '(sx, sy) :=
       Plane.screenPosition (Plane.viewBox st)
         (Worker.x char) (Worker.y char) in
     (- m <= sx <= 1920 + m) /\ (- m <= sy <= 1080 + m)).
Proof.
  split; [|split].
  - unfold Plane.visibleCharacters. apply filter_sublist_mono.
    intros char. apply isCharacterVisible_desktop_mobile.
  - intros isMobile. apply sublist_filter.
  - intros isMobile char. unfold Plane.visibleCharacters.
    rewrite list_elem_of_filter, isCharacterVisible_box. tauto.
Qed.

(** ** The layout: seeds and distances *)

Lemma fold_left_codes_perm (l1 l2 : list ascii) :
  l1 ≡ₚ l2 ->
  forall acc,
    fold_left (fun acc char => (acc + charCodeAt0 char)%Z) l1 acc =
    fold_left (fun acc char => (acc + charCodeAt0 char)%Z) l2 acc.
Proof.
  induction 1 as [|c l1 l2 _ IH|c d l|l1 l2 l3 _ IH1 _ IH2]; intros acc.
  - reflexivity.
  - cbn [fold_left]. apply IH.
  - cbn [fold_left]. f_equal. lia.
  - now rewrite IH1.
Qed.

Lemma fold_left_codes_acc (l : list ascii) (acc : Z) :
  fold_left (fun acc char => (acc + charCodeAt0 char)%Z) l acc =
  (acc + fold_left (fun acc char => (acc + charCodeAt0 char)%Z) l 0)%Z.
Proof.
  revert acc. induction l as [|c l IH]; intros acc; cbn [fold_left]; [lia|].
  rewrite (IH (acc + charCodeAt0 c)%Z), (IH (0 + charCodeAt0 c)%Z). lia.
Qed.

Lemma fold_left_codes_bounds (l : list ascii) (m : Z) :
  (forall c, c ∈ l -> (0 <= charCodeAt0 c <= m)%Z) ->
  (0 <= fold_left (fun acc char => (acc + charCodeAt0 char)%Z) l 0
     <= m * Z.of_nat (length l))%Z.
Proof.
  induction l as [|c l IH]; intros Hm; [cbn; lia|].
  cbn [fold_left length]. rewrite fold_left_codes_acc.
  pose proof (Hm c (list_elem_of_here c l)) as Hc.
  assert (IHl : (0 <= fold_left
                        (fun acc char => (acc + charCodeAt0 char)%Z) l 0
                   <= m * Z.of_nat (length l))%Z).
  { apply IH. intros d Hd. apply Hm. now apply list_elem_of_further. }
  lia.
Qed.

Lemma length_list_ascii_of_string (s : string) :
  length (list_ascii_of_string s) = String.length s.
Proof.
  induction s as [|c s IH]; cbn [list_ascii_of_string length String.length];
    [reflexivity|]. now rewrite IH.
Qed.

Lemma list_ascii_of_string_app (s1 s2 : string) :
  list_ascii_of_string (s1 ++ s2) =
  list_ascii_of_string s1 ++ list_ascii_of_string s2.
Proof.
  induction s1 as [|c s1 IH]; [reflexivity|].
  simpl. now rewrite IH.
Qed.

Lemma polar_seed length index id1 id2 size :
  convertStringToNumber (SeedString id1) =
  convertStringToNumber (SeedString id2) ->
  Worker.polar length index {| Worker.holderID := id1; Worker.size := size |} =
  Worker.polar length index {| Worker.holderID := id2; Worker.size := size |}.
Proof.
  intros Hseed. unfold Worker.polar, mulberry32.
  cbn [Worker.holderID Worker.size]. now rewrite Hseed.
Qed.

(** X11: the seed of an identity is the sum of the codes of its
    characters, whatever their range: the seed of a concatenation is the
    sum of the seeds of its parts; when every code of the identity lies
    between 0 and a bound [m], the seed lies between 0 and [m] times the
    length; and two identities made of the same characters in another
    order have the same seed, hence the same draws and, at equal index,
    size and list length, the same angle and radius. *)
Theorem seed_ignores_character_order :
  (forall s1 s2,
     convertStringToNumber (SeedString (s1 ++ s2)) =
     (convertStringToNumber (SeedString s1)
      + convertStringToNumber (SeedString s2))%Z) /\
  (forall s m,
     (forall c, c ∈ list_ascii_of_string s -> (0 <= charCodeAt0 c <= m)%Z) ->
     (0 <= convertStringToNumber (SeedString s)
        <= m * Z.of_nat (String.length s))%Z) /\
  (forall s1 s2,
     list_ascii_of_string s1 ≡ₚ list_ascii_of_string s2 ->
     convertStringToNumber (SeedString s1) =
       convertStringToNumber (SeedString s2) /\
     (forall k,
        draws k (mulberry32 (SeedString s1)) =
        draws k (mulberry32 (SeedString s2))) /\
     (forall length index size,
        Worker.polar length index
          {| Worker.holderID := s1; Worker.size := size |} =
        Worker.polar length index
          {| Worker.holderID := s2; Worker.size := size |})).
Proof.
  split; [|split].
  - intros s1 s2. unfold convertStringToNumber.
    rewrite list_ascii_of_string_app, fold_left_app.
    apply fold_left_codes_acc.
  - intros s m Hm. unfold convertStringToNumber.
    rewrite <- length_list_ascii_of_string.
    now apply fold_left_codes_bounds.
  - intros s1 s2 Hperm.
    assert (Hseed : convertStringToNumber (SeedString s1) =
                    convertStringToNumber (SeedString s2)).
    { unfold convertStringToNumber. now apply fold_left_codes_perm. }
    split; [exact Hseed|]. split.
    + intros k. unfold mulberry32. now rewrite Hseed.
    + intros length index size. now apply polar_seed.
Qed.

Lemma seed_ignores_character_order_witness :
  (forall c, c ∈ list_ascii_of_string "AB" -> (0 <= charCodeAt0 c <= 66)%Z) /\
  (0 <= convertStringToNumber (SeedString "AB") <= 66 * 2)%Z /\
  list_ascii_of_string "AB" ≡ₚ list_ascii_of_string "BA" /\
  convertStringToNumber (SeedString "AB") =
  convertStringToNumber (SeedString "BA") /\
  Worker.polar 2 1 {| Worker.holderID := "AB"; Worker.size := 0.5 |} =
  Worker.polar 2 1 {| Worker.holderID := "BA"; Worker.size := 0.5 |}.
Proof.
  assert (Hcodes : forall c, c ∈ list_ascii_of_string "AB" ->
                             (0 <= charCodeAt0 c <= 66)%Z).
  { intros c Hc. cbn [list_ascii_of_string] in Hc.
    apply elem_of_cons in Hc as [->|Hc]; [vm_compute; split; discriminate|].
    apply elem_of_cons in Hc as [->|Hc]; [vm_compute; split; discriminate|].
    now apply elem_of_nil in Hc. }
  assert (Hperm : list_ascii_of_string "AB" ≡ₚ list_ascii_of_string "BA")
    by apply perm_swap.
  destruct seed_ignores_character_order as (_ & Hbound & Horder).
  destruct (Horder "AB" "BA" Hperm) as (Hseed & _ & Hpolar).
  split; [exact Hcodes|]. split; [exact (Hbound "AB" 66%Z Hcodes)|].
  split; [exact Hperm|]. split; [exact Hseed|]. exact (Hpolar 2%nat 1%nat 0.5).
Defined.

Lemma draw1_range seed : 0 <= draw1 seed < 1.
Proof. apply mulberry32_call_range. Qed.

Lemma draw2_range seed : 0 <= draw2 seed < 1.
Proof. apply mulberry32_call_range. Qed.

Lemma placed_distance item angle radius :
  Worker.x (Worker.placed item angle radius)
    * Worker.x (Worker.placed item angle radius)
  + Worker.y (Worker.placed item angle radius)
    * Worker.y (Worker.placed item angle radius)
  = radius * radius.
Proof.
  cbn [Worker.placed Worker.x Worker.y].
  pose proof (sin2_cos2 angle) as H. unfold Rsqr in H.
  replace (radius * cos angle * (radius * cos angle)
           + radius * sin angle * (radius * sin angle))
    with (radius * radius * (sin angle * sin angle + cos angle * cos angle))
    by ring.
  rewrite H. ring.
Qed.

Lemma maxRadius_nonneg n : 0 <= Worker.maxRadius n.
Proof.
  unfold Worker.maxRadius. pose proof (sqrt_pos (INR n)). lra.
Qed.

Lemma sqrt_ratio_le_1 (i n : nat) :
  (i < n)%nat -> 0 <= sqrt (INR i / INR n) <= 1.
Proof.
  intros Hin. split; [apply sqrt_pos|].
  rewrite <- sqrt_1. apply sqrt_le_1_alt.
  assert (0 < INR n) by (apply lt_0_INR; lia).
  assert (INR i <= INR n) by (apply le_INR; lia).
  apply Rmult_le_reg_r with (INR n); [assumption|].
  unfold Rdiv. rewrite Rmult_assoc, Rinv_l by lra. lra.
Qed.

(** The final angle and radius of an element, with the two perturbations
    as multiples [a] and [e] of their largest sizes. *)
Lemma polar_perturbed length index item :
  (0 < length)%nat ->
  exists a e,
    -1 <= a < 1 /\ -1 <= e < 1 /\
    Worker.polar length index item =
    Some (INR index * Worker.goldenAngle + a * 0.05,
          Worker.maxRadius length * sqrt (INR index / INR length)
            * Worker.sizeScale (Worker.size item)
          + e * (Worker.maxRadius length * 0.9 / INR length)
            * Worker.sizeScale (Worker.size item)).
Proof.
  intros Hn.
  set (seed := mulberry32 (SeedString (Worker.holderID item))).
  pose proof (draw1_range seed) as H1. pose proof (draw2_range seed) as H2.
  exists ((draw1 seed - 0.5) * 2), ((draw2 seed - 0.5) * 2).
  split; [lra|]. split; [lra|].
  rewrite polar_Some by assumption. cbv zeta. fold seed.
  apply f_equal, f_equal2.
  - generalize (INR index * Worker.goldenAngle), (draw1 seed). intros u v.
    lra.
  - unfold Rdiv. ring.
Qed.

(** X12: the perturbations are bounded: the final angle of an element is
    within 0.05 rad of [index * goldenAngle], and its final radius within
    [0.9 * maxRadius / n * |sizeScale|] of the radius before perturbation;
    the element is posted at distance [|radius|] from the origin. *)
Theorem layout_perturbation_bounds
    (data : list Worker.Holder) (i : nat) (item : Worker.Holder) :
  data !! i = Some item ->
  exists ps angle radius base,
    Worker.onmessage data =
      Some [ {| Worker.positions := ps; Worker.isComplete := true |} ] /\
    ps !! i = Some (Worker.placed item angle radius) /\
    Worker.baseRadius (length data) i (Worker.size item) = Some base /\
    Rabs (angle - INR i * Worker.goldenAngle) <= 0.05 /\
    Rabs (radius - base) <=
      0.9 * Worker.maxRadius (length data) / INR (length data)
      * Rabs (Worker.sizeScale (Worker.size item)) /\
    Worker.x (Worker.placed item angle radius)
      * Worker.x (Worker.placed item angle radius)
    + Worker.y (Worker.placed item angle radius)
      * Worker.y (Worker.placed item angle radius)
    = radius * radius.
Proof.
  intros Hi.
  destruct (onmessage_posts data) as (ps & Hmsg & _ & Hnth).
  destruct (Hnth i item Hi) as (p & Hp & Hplace).
  assert (Hn : (0 < length data)%nat) by (apply lookup_lt_Some in Hi; lia).
  destruct (polar_perturbed (length data) i item Hn)
    as (a & e & Ha & He & Hpolar).
  rewrite (placeEntity_polar _ _ _ _ _ Hpolar) in Hplace.
  apply (inj Some) in Hplace. subst p.
  eexists ps, _, _, _. split; [exact Hmsg|]. split; [exact Hp|].
  split; [now apply baseRadius_Some|].
  split; [|split; [|apply placed_distance]].
  - replace (INR i * Worker.goldenAngle + a * 0.05
             - INR i * Worker.goldenAngle) with (a * 0.05) by ring.
    apply Rabs_le. lra.
  - set (M := Worker.maxRadius (length data)).
    set (ss := Worker.sizeScale (Worker.size item)).
    set (q := sqrt _).
    assert (HM : 0 <= M) by apply maxRadius_nonneg.
    assert (Hlen : 0 < INR (length data)) by (apply lt_0_INR; lia).
    assert (Hd : 0 <= M * 0.9 / INR (length data)).
    { apply Rmult_le_pos; [lra|]. apply Rlt_le, Rinv_0_lt_compat, Hlen. }
    replace (M * q * ss + e * (M * 0.9 / INR (length data)) * ss - M * q * ss)
      with (e * (M * 0.9 / INR (length data)) * ss) by ring.
    replace (0.9 * M / INR (length data)) with (M * 0.9 / INR (length data))
      by (unfold Rdiv; ring).
    rewrite !Rabs_mult, (Rabs_pos_eq _ Hd).
    assert (Hae : Rabs e <= 1) by (apply Rabs_le; lra).
    pose proof (Rabs_pos ss) as Hss.
    set (d := M * 0.9 / INR (length data)) in *.
    assert (Hds : 0 <= d * Rabs ss) by now apply Rmult_le_pos.
    replace (Rabs e * d * Rabs ss) with (Rabs e * (d * Rabs ss)) by ring.
    pose proof (Rabs_pos e). nra.
Qed.

Lemma layout_perturbation_bounds_witness :
  exists ps angle radius base,
    Worker.onmessage Worker.scenario =
      Some [ {| Worker.positions := ps; Worker.isComplete := true |} ] /\
    ps !! 1%nat = Some (Worker.placed Worker.holderB angle radius) /\
    Worker.baseRadius 2 1 1 = Some base /\
    Rabs (angle - INR 1 * Worker.goldenAngle) <= 0.05.
Proof.
  destruct (layout_perturbation_bounds Worker.scenario 1 Worker.holderB
              eq_refl)
    as (ps & angle & radius & base & H1 & H2 & H3 & H4 & _).
  exists ps, angle, radius, base. repeat split; assumption.
Defined.

(** X13: when the size of an element lies in [0, 1], the element is
    posted within distance [3 * maxRadius * (1 + 0.9 / n)] of the origin,
    [maxRadius] being [sqrt n * 500]. *)
Theorem layout_within_disc
    (data : list Worker.Holder) (i : nat) (item : Worker.Holder) :
  data !! i = Some item ->
  0 <= Worker.size item <= 1 ->
  exists ps p,
    Worker.onmessage data =
      Some [ {| Worker.positions := ps; Worker.isComplete := true |} ] /\
    ps !! i = Some p /\
    let bound :=
      3 * (sqrt (INR (length data)) * 500) * (1 + 0.9 / INR (length data)) in
    Worker.x p * Worker.x p + Worker.y p * Worker.y p <= bound * bound.
Proof.
  intros Hi Hsize.
  destruct (onmessage_posts data) as (ps & Hmsg & _ & Hnth).
  destruct (Hnth i item Hi) as (p & Hp & Hplace).
  assert (Hlt : (i < length data)%nat) by now apply lookup_lt_Some in Hi.
  assert (Hn : (0 < length data)%nat) by lia.
  destruct (polar_perturbed (length data) i item Hn)
    as (a & e & Ha & He & Hpolar).
  rewrite (placeEntity_polar _ _ _ _ _ Hpolar) in Hplace.
  apply (inj Some) in Hplace. subst p.
  eexists ps, _. split; [exact Hmsg|]. split; [exact Hp|].
  cbv zeta. rewrite placed_distance.
  fold (Worker.maxRadius (length data)).
  set (M := Worker.maxRadius (length data)).
  set (ss := Worker.sizeScale (Worker.size item)).
  pose proof (sqrt_ratio_le_1 i (length data) Hlt) as Hq.
  set (q := sqrt _) in *.
  assert (HM : 0 <= M) by apply maxRadius_nonneg.
  assert (Hlen : 0 < INR (length data)) by (apply lt_0_INR; lia).
  assert (Hinv : 0 < / INR (length data)) by now apply Rinv_0_lt_compat.
  assert (Hss : 1 <= ss <= 3) by (unfold ss, Worker.sizeScale; lra).
  set (v := / INR (length data)) in *.
  assert (Hdiv : forall u, u / INR (length data) = u * v) by reflexivity.
  rewrite !Hdiv. clear Hdiv. clearbody M ss q v.
  assert (H09 : 0.9 = 9 / 10) by lra. rewrite !H09. clear H09.
  assert (Hd : 0 <= M * (9 / 10) * v) by (apply Rmult_le_pos; lra).
  set (d := M * (9 / 10) * v) in *.
  set (r := M * q * ss + e * d * ss).
  assert (Hqs : 0 <= q * ss <= 3) by nra.
  assert (Hes : -3 <= e * ss <= 3) by nra.
  assert (Hr : r = M * (q * ss) + d * (e * ss)) by (unfold r; ring).
  assert (H1 : M * (q * ss) <= M * 3)
    by (apply Rmult_le_compat_l; lra).
  assert (H2 : 0 <= M * (q * ss)) by (apply Rmult_le_pos; lra).
  assert (H3 : d * (e * ss) <= d * 3)
    by (apply Rmult_le_compat_l; lra).
  assert (H4 : d * -3 <= d * (e * ss))
    by (apply Rmult_le_compat_l; lra).
  assert (Hb : 3 * M * (1 + 9 / 10 * v) = M * 3 + d * 3)
    by (unfold d; lra).
  rewrite Hb. clearbody r d.
  assert (Hup : r <= M * 3 + d * 3) by lra.
  assert (Hlow : - (M * 3 + d * 3) <= r) by lra.
  set (B := M * 3 + d * 3) in *. clearbody B. nra.
Qed.

Lemma layout_within_disc_witness :
  exists ps p,
    Worker.onmessage Worker.scenario =
      Some [ {| Worker.positions := ps; Worker.isComplete := true |} ] /\
    ps !! 1%nat = Some p /\
    Worker.x p * Worker.x p + Worker.y p * Worker.y p <=
    (3 * (sqrt (INR 2) * 500) * (1 + 0.9 / INR 2))
    * (3 * (sqrt (INR 2) * 500) * (1 + 0.9 / INR 2)).
Proof.
  apply (layout_within_disc Worker.scenario 1 Worker.holderB eq_refl).
  cbn. lra.
Defined.



(** ** Drawing a character *)

Section Wrapping.

Import Character.

Lemma split_spaces_cons s : exists w ws, split_spaces s = w :: ws.
Proof.
  induction s as [|c s (w & ws & IH)]; cbn [split_spaces]; [eauto|].
  destruct (Ascii.eqb c " "); [eauto|]. rewrite IH. eauto.
Qed.

Lemma split_spaces_no_space s :
  Forall (fun w => has_space w = false) (split_spaces s).
Proof.
  induction s as [|c s IH]; cbn [split_spaces].
  - repeat constructor.
  - destruct (Ascii.eqb c " ") eqn:Hc.
    + constructor; [reflexivity|exact IH].
    + destruct (split_spaces s) as [|w ws].
      * repeat constructor. cbn [has_space]. now rewrite Hc.
      * inversion IH as [|? ? Hw Hws]; subst. constructor; [|exact Hws].
        cbn [has_space]. now rewrite Hc, Hw.
Qed.

Lemma split_spaces_word w : has_space w = false -> split_spaces w = [w].
Proof.
  induction w as [|c w IH]; [reflexivity|]. cbn [has_space split_spaces].
  destruct (Ascii.eqb c " "); [discriminate|]. cbn [orb].
  intros Hw. now rewrite IH.
Qed.

Lemma split_spaces_join a b :
  split_spaces (a +:+ " " +:+ b) = split_spaces a ++ split_spaces b.
Proof.
  induction a as [|c a IH]; [reflexivity|].
  change (String c a +:+ " " +:+ b) with (String c (a +:+ " " +:+ b)).
  cbn [split_spaces]. rewrite IH.
  destruct (Ascii.eqb c " "); [reflexivity|].
  destruct (split_spaces_cons a) as (w & ws & ->). reflexivity.
Qed.

Lemma truthy_true s : truthy s = true <-> s <> EmptyString.
Proof. destruct s; cbn; split; congruence. Qed.

Lemma linesWords_app l1 l2 :
  linesWords (l1 ++ l2) = linesWords l1 ++ linesWords l2.
Proof.
  unfold linesWords. rewrite filter_app.
  induction (filter _ l1) as [|a l IH]; [reflexivity|].
  cbn [flat_map app]. rewrite <- app_assoc. now f_equal.
Qed.

Lemma linesWords_one line :
  linesWords [line] = if truthy line then split_spaces line else [].
Proof.
  unfold linesWords. destruct (truthy line) eqn:Ht.
  - rewrite filter_cons_True by assumption. cbn. apply app_nil_r.
  - rewrite filter_cons_False by (rewrite Ht; discriminate). reflexivity.
Qed.

(** The words survive one turn of the loop. *)
Lemma wrapWord_words lines currentLine word :
  word <> EmptyString ->
  has_space word = false ->
  let '(lines', currentLine') := wrapWord (lines, currentLine) word in
  linesWords (lines' ++ [currentLine']) =
  linesWords (lines ++ [currentLine]) ++ [word].
Proof.
  intros Hne Hsp. unfold wrapWord.
  assert (Hw : linesWords [word] = [word]).
  { rewrite linesWords_one. apply truthy_true in Hne. rewrite Hne.
    now apply split_spaces_word. }
  destruct (truthy currentLine) eqn:Hcur;
    destruct (maxLineLength <? _)%nat.
  - now rewrite linesWords_app, Hw.
  - rewrite !linesWords_app, !linesWords_one, Hcur.
    assert (Ht : truthy (currentLine +:+ " " +:+ word) = true)
      by (destruct currentLine; [discriminate|reflexivity]).
    rewrite Ht, split_spaces_join, (split_spaces_word word) by assumption.
    now rewrite app_assoc.
  - now rewrite linesWords_app, Hw.
  - rewrite !linesWords_app, Hw, linesWords_one, Hcur.
    now rewrite app_nil_r.
Qed.

Lemma wrap_fold_words words : forall lines currentLine,
  Forall (fun w => w <> EmptyString) words ->
  Forall (fun w => has_space w = false) words ->
  let '(lines', currentLine') :=
    fold_left wrapWord words (lines, currentLine) in
  linesWords (lines' ++ [currentLine']) =
  linesWords (lines ++ [currentLine]) ++ words.
Proof.
  induction words as [|w words IH]; intros lines currentLine Hne Hsp.
  - cbn [fold_left]. now rewrite app_nil_r.
  - cbn [fold_left]. inversion Hne; inversion Hsp; subst.
    pose proof (wrapWord_words lines currentLine w) as Hstep.
    destruct (wrapWord (lines, currentLine) w) as [lines1 cur1].
    specialize (IH lines1 cur1).
    destruct (fold_left wrapWord words (lines1, cur1)) as [lines2 cur2].
    rewrite IH, Hstep by assumption. now rewrite <- app_assoc.
Qed.

End Wrapping.

(** X15: wrapping neither loses, adds nor reorders words: when no word
    of the text is empty (no leading, trailing or doubled space), the
    words of the lines, an empty line apart, are the words of the text
    in their order. *)
Theorem wrapLines_keeps_words (speechText : string) :
  Forall (fun w => w <> EmptyString) (Character.split_spaces speechText) ->
  Character.linesWords (Character.wrapLines speechText) =
  Character.split_spaces speechText.
Proof.
  intros Hne. unfold Character.wrapLines.
  pose proof (wrap_fold_words (Character.split_spaces speechText) []
                EmptyString Hne (split_spaces_no_space speechText)) as H.
  destruct (fold_left _ _ _) as [lines cur].
  rewrite linesWords_app in H. rewrite linesWords_one in H.
  destruct (Character.truthy cur) eqn:Hcur.
  - rewrite linesWords_app, linesWords_one, Hcur. exact H.
  - rewrite app_nil_r in H. exact H.
Qed.

Lemma wrapLines_keeps_words_witness :
  Character.linesWords (Character.wrapLines "I am a serious investor") =
  ["I"; "am"; "a"; "serious"; "investor"].
Proof.
  apply (wrapLines_keeps_words "I am a serious investor").
  vm_compute. repeat (apply Forall_cons; split; [discriminate|]).
  apply Forall_nil_2.
Defined.

Section WrapWidth.

Import Character.

(** A property of lines kept by the loop: [Q] holds of every line pushed
    and, unless it is still empty, of the current line. *)
Lemma wrap_fold_invariant (Q : string -> Prop) (Qw : string -> Prop) :
  (forall w, Qw w -> Q w) ->
  (forall cur w,
     Q cur -> Qw w ->
     (String.length (cur +:+ " " +:+ w) <= maxLineLength)%nat ->
     Q (cur +:+ " " +:+ w)) ->
  (forall w, Qw w -> (maxLineLength < String.length w)%nat -> Q EmptyString) ->
  forall words lines currentLine,
    Forall Qw words ->
    Forall Q lines ->
    (currentLine = EmptyString \/ Q currentLine) ->
    let '(lines', currentLine') :=
      fold_left wrapWord words (lines, currentLine) in
    Forall Q lines' /\ (currentLine' = EmptyString \/ Q currentLine').
Proof.
  intros HQw Hjoin Hlong.
  induction words as [|w words IH]; intros lines cur Hw Hlines Hcur.
  - cbn [fold_left]. split; assumption.
  - cbn [fold_left]. inversion Hw as [|? ? Hw1 Hws]; subst.
    unfold wrapWord at 2.
    destruct (truthy cur) eqn:Ht.
    + assert (HQcur : Q cur).
      { destruct Hcur as [->|Hc]; [discriminate|assumption]. }
      destruct (Nat.ltb_spec maxLineLength
                  (String.length (cur +:+ " " +:+ w))) as [Hlt|Hle].
      * apply IH; [assumption| |right; auto].
        apply Forall_app. split; [assumption|]. now repeat constructor.
      * apply IH; [assumption|assumption|right]. now apply Hjoin.
    + assert (cur = EmptyString) as -> by (destruct cur; [reflexivity|discriminate]).
      destruct (Nat.ltb_spec maxLineLength (String.length w)) as [Hlt|Hle].
      * apply IH; [assumption| |right; auto].
        apply Forall_app. split; [assumption|].
        repeat constructor. now apply (Hlong w).
      * apply IH; [assumption|assumption|right; auto].
Qed.

Lemma wrapLines_invariant (Q : string -> Prop) (Qw : string -> Prop) s :
  (forall w, Qw w -> Q w) ->
  (forall cur w,
     Q cur -> Qw w ->
     (String.length (cur +:+ " " +:+ w) <= maxLineLength)%nat ->
     Q (cur +:+ " " +:+ w)) ->
  (forall w, Qw w -> (maxLineLength < String.length w)%nat -> Q EmptyString) ->
  Forall Qw (split_spaces s) ->
  Forall Q (wrapLines s).
Proof.
  intros HQw Hjoin Hlong Hwords. unfold wrapLines.
  pose proof (wrap_fold_invariant Q Qw HQw Hjoin Hlong (split_spaces s) []
                EmptyString Hwords (Forall_nil_2 Q) (or_introl eq_refl)) as H.
  destruct (fold_left _ _ _) as [lines cur]. destruct H as [Hlines Hcur].
  destruct (truthy cur) eqn:Ht; [|assumption].
  apply Forall_app. split; [assumption|]. repeat constructor.
  destruct Hcur as [->|Hc]; [discriminate|assumption].
Qed.

Lemma wrap_fold_prefix words : forall lines currentLine,
  exists more cur',
    fold_left wrapWord words (lines, currentLine) = (lines ++ more, cur').
Proof.
  induction words as [|w words IH]; intros lines cur.
  - exists [], cur. cbn [fold_left]. now rewrite app_nil_r.
  - cbn [fold_left]. unfold wrapWord at 2.
    destruct (truthy cur); destruct (_ <? _)%nat.
    + destruct (IH (lines ++ [cur]) w) as (more & cur' & ->).
      exists (cur :: more), cur'. now rewrite <- app_assoc.
    + apply IH.
    + destruct (IH (lines ++ [cur]) w) as (more & cur' & ->).
      exists (cur :: more), cur'. now rewrite <- app_assoc.
    + apply IH.
Qed.

End WrapWidth.

(** X16: every line is at most 15 characters long or is a single word
    (a word longer than 15 is left whole on a line of its own); when every
    word of the text is non-empty and at most 15 long, every line is
    non-empty and at most 15 long. *)
Theorem wrapLines_line_width (speechText : string) :
  Forall (fun line =>
            (String.length line <= 15)%nat \/
            Character.has_space line = false)
         (Character.wrapLines speechText) /\
  (Forall (fun w => w <> EmptyString /\ (String.length w <= 15)%nat)
          (Character.split_spaces speechText) ->
   Forall (fun line => line <> EmptyString /\ (String.length line <= 15)%nat)
          (Character.wrapLines speechText)).
Proof.
  split.
  - apply wrapLines_invariant
      with (Qw := fun w => Character.has_space w = false).
    + intros w Hw. now right.
    + intros cur w _ _ Hlen. now left.
    + intros w _ _. now right.
    + apply split_spaces_no_space.
  - intros Hwords.
    apply wrapLines_invariant
      with (Qw := fun w => w <> EmptyString /\ (String.length w <= 15)%nat).
    + intros w Hw. exact Hw.
    + intros cur w [Hcur _] _ Hlen. split; [|exact Hlen].
      destruct cur; [contradiction|discriminate].
    + intros w [_ Hw] Hlong. unfold Character.maxLineLength in Hlong. lia.
    + exact Hwords.
Qed.

Lemma wrapLines_line_width_witness :
  Forall (fun line => line <> EmptyString /\ (String.length line <= 15)%nat)
         (Character.wrapLines "I am a serious investor").
Proof.
  apply (proj2 (wrapLines_line_width "I am a serious investor")).
  vm_compute.
  repeat (apply Forall_cons; split; [split; [discriminate|lia]|]).
  apply Forall_nil_2.
Defined.

(** X17: when the first word of the text is longer than 15 characters,
    the first line is empty (the loop pushes the still empty current line
    before the word); a text that is one such word gives the two lines
    [""] and the word. *)
Theorem wrapLines_long_first_word (speechText w : string) (ws : list string) :
  Character.split_spaces speechText = w :: ws ->
  (15 < String.length w)%nat ->
  (exists rest, Character.wrapLines speechText = EmptyString :: rest) /\
  (ws = [] -> Character.wrapLines speechText = [EmptyString; w]).
Proof.
  intros Hsplit Hlong. unfold Character.wrapLines. rewrite Hsplit.
  cbn [fold_left].
  assert (Hfirst : Character.wrapWord ([], EmptyString) w
                   = ([] ++ [EmptyString], w)).
  { unfold Character.wrapWord, Character.maxLineLength.
    cbn [Character.truthy].
    destruct (Nat.ltb_spec 15 (String.length w)) as [_|Hle]; [|lia].
    reflexivity. }
  rewrite Hfirst.
  assert (Hw : Character.truthy w = true)
    by (destruct w; [cbn in Hlong; lia|reflexivity]).
  split.
  - destruct (wrap_fold_prefix ws ([] ++ [EmptyString]) w)
      as (more & cur' & ->).
    destruct (Character.truthy cur'); eexists; reflexivity.
  - intros ->. cbn [fold_left]. rewrite Hw. reflexivity.
Qed.

Lemma wrapLines_long_first_word_witness :
  Character.wrapLines "Supercalifragilistic" =
  [EmptyString; "Supercalifragilistic"].
Proof.
  apply (proj2 (wrapLines_long_first_word "Supercalifragilistic"
                  "Supercalifragilistic" [] eq_refl ltac:(cbn; lia))).
  reflexivity.
Defined.

Section Traits.

Import Character.

Lemma Math_floor_index (r : R) (n : nat) :
  0 <= r < 1 -> (0 < n)%nat ->
  (0 <= Math_floor (r * INR n) < Z.of_nat n)%Z.
Proof.
  intros [Hr0 Hr1] Hn. unfold Math_floor.
  pose proof (base_Int_part (r * INR n)) as [Hlow Hup].
  assert (HINR : 0 < INR n) by (apply lt_0_INR; lia).
  assert (Hprod : 0 <= r * INR n < INR n) by nra.
  split.
  - assert (H : (-1 < Int_part (r * INR n))%Z) by (apply lt_IZR; lra). lia.
  - apply lt_IZR. rewrite <- INR_IZR_INZ. lra.
Qed.

Lemma pick_Some {A : Type} (arr : list A) (r : R) :
  0 <= r < 1 -> arr <> [] -> exists a, pick arr r = Some a /\ a ∈ arr.
Proof.
  intros Hr Hne. unfold pick. cbv zeta.
  assert (Hn : (0 < length arr)%nat) by (destruct arr; [contradiction|cbn; lia]).
  pose proof (Math_floor_index r (length arr) Hr Hn) as [H0 H1].
  destruct (Z.ltb_spec (Math_floor (r * INR (length arr))) 0); [lia|].
  destruct (lookup_lt_is_Some_2 arr
              (Z.to_nat (Math_floor (r * INR (length arr))))) as [a Ha];
    [lia|].
  exists a. split; [exact Ha|]. apply list_elem_of_lookup. eauto.
Qed.

Lemma pick_empty {A : Type} (r : R) : pick (@nil A) r = None.
Proof.
  unfold pick. cbv zeta. now destruct (_ <? 0)%Z.
Qed.

Lemma normalizedSize_min s : 0.8 <= normalizedSize s.
Proof.
  unfold normalizedSize. assert (0 <= s ^ 2) by (apply pow2_ge_0). lra.
Qed.

End Traits.

(** X18: with non-empty speech tables [drawCharacter] completes, the
    speech text is an entry of the table of the mood drawn, its lines are
    the wrapped text, and the body and head indices are valid indices of
    their non-empty tables; with both speech tables empty the speech text
    is [undefined] and the call fails. *)
Theorem drawCharacter_picks (tables : Character.Tables)
    (character : Worker.CharacterPosition) :
  (Character.speechOptions tables <> [] ->
   Character.sadSpeechOptions tables <> [] ->
   exists d,
     Character.drawCharacter tables character = Some d /\
     Character.speechText d ∈
       match Character.mood d with
       | Character.happy => Character.speechOptions tables
       | Character.sad => Character.sadSpeechOptions tables
       end /\
     Character.lines d = Character.wrapLines (Character.speechText d) /\
     ((0 < Character.bodies tables)%nat ->
      (0 <= Character.bodyIndex d < Z.of_nat (Character.bodies tables))%Z) /\
     (let heads := match Character.mood d with
                   | Character.happy => Character.happyHeads tables
                   | Character.sad => Character.sadHeads tables
                   end in
      (0 < heads)%nat ->
      (0 <= Character.headIndex d < Z.of_nat heads)%Z)) /\
  (Character.speechOptions tables = [] ->
   Character.sadSpeechOptions tables = [] ->
   Character.drawCharacter tables character = None).
Proof.
  unfold Character.drawCharacter. cbv zeta.
  set (seed0 := mulberry32 _).
  pose proof (mulberry32_call_range seed0) as Hr1.
  destruct (mulberry32_call seed0) as [r1 seed1]. cbn [fst] in Hr1.
  pose proof (mulberry32_call_range seed1) as Hr2.
  destruct (mulberry32_call seed1) as [r2 seed2]. cbn [fst] in Hr2.
  pose proof (mulberry32_call_range seed2) as Hr3.
  destruct (mulberry32_call seed2) as [r3 seed3]. cbn [fst] in Hr3.
  pose proof (mulberry32_call_range seed3) as Hr4.
  destruct (mulberry32_call seed3) as [r4 seed4]. cbn [fst] in Hr4.
  pose proof (normalizedSize_min (Worker.sizeParameter character)) as Hsize.
  split.
  - intros Hhappy Hsad.
    rewrite (js_div_Some 18) by lra.
    destruct (js_lt r1 0.6).
    + destruct (pick_Some (Character.speechOptions tables) r2 Hr2 Hhappy)
        as (text & -> & Hin).
      cbn [mbind option_bind]. eexists. split; [reflexivity|].
      cbn [Character.speechText Character.mood Character.lines
           Character.bodyIndex Character.headIndex].
      split; [exact Hin|]. split; [reflexivity|].
      split; intros Hn; now apply Math_floor_index.
    + destruct (pick_Some (Character.sadSpeechOptions tables) r2 Hr2 Hsad)
        as (text & -> & Hin).
      cbn [mbind option_bind]. eexists. split; [reflexivity|].
      cbn [Character.speechText Character.mood Character.lines
           Character.bodyIndex Character.headIndex].
      split; [exact Hin|]. split; [reflexivity|].
      split; intros Hn; now apply Math_floor_index.
  - intros -> ->. rewrite !pick_empty. now destruct (js_lt r1 0.6).
Qed.

Lemma drawCharacter_picks_witness :
  let tables := {| Character.speechOptions := ["GM brah"];
                   Character.sadSpeechOptions := ["I hold ETH"];
                   Character.bodies := 11;
                   Character.happyHeads := 7;
                   Character.sadHeads := 12 |} in
  exists d,
    Character.drawCharacter tables (Worker.placed Worker.holderA 0 0) = Some d /\
    ((0 < 11)%nat -> (0 <= Character.bodyIndex d < 11)%Z).
Proof.
  intros tables.
  destruct (proj1 (drawCharacter_picks tables
                     (Worker.placed Worker.holderA 0 0)))
    as (d & Hd & _ & _ & Hbody & _); [discriminate|discriminate|].
  exists d. split; [exact Hd|exact Hbody].
Defined.

(** X19: the size factor [0.8 + size^2 * 1.2] is at least 0.8 for every
    size, so the font size [18 / normalizedSize] never divides by zero and
    is at most 22.5; for a size in [0, 1] the factor lies in the range 0.8
    to 2.0 that the code states, and it grows with the size there. *)
Theorem normalizedSize_range (sizeParameter : R) :
  0.8 <= Character.normalizedSize sizeParameter /\
  (exists fontSize,
     js_div 18 (Character.normalizedSize sizeParameter) = Some fontSize /\
     0 < fontSize <= 22.5) /\
  (0 <= sizeParameter <= 1 ->
   Character.normalizedSize sizeParameter <= 2.0 /\
   forall smaller,
     0 <= smaller <= sizeParameter ->
     Character.normalizedSize smaller
       <= Character.normalizedSize sizeParameter).
Proof.
  pose proof (normalizedSize_min sizeParameter) as Hmin.
  split; [exact Hmin|]. split.
  - rewrite js_div_Some by lra. eexists. split; [reflexivity|].
    set (n := Character.normalizedSize sizeParameter) in *. clearbody n.
    split.
    + apply Rdiv_lt_0_compat; lra.
    + apply Rmult_le_reg_r with n; [lra|].
      unfold Rdiv. rewrite Rmult_assoc, Rinv_l by lra. lra.
  - intros Hs. unfold Character.normalizedSize. split; [nra|].
    intros smaller Hsm. nra.
Qed.

Lemma normalizedSize_range_witness :
  0 <= 1 <= 1 /\ Character.normalizedSize 1 <= 2.0.
Proof.
  assert (H : 0 <= 1 <= 1) by lra.
  split; [exact H|].
  exact (proj1 (proj2 (proj2 (normalizedSize_range 1)) H)).
Defined.

(** ** Loading the characters *)

Lemma characterIndex_hit (l : list Worker.CharacterPosition) (k : string) :
  (exists c, c ∈ l /\ Worker.walletAddress c = k) ->
  exists c, Plane.characterIndex l !! k = Some c /\
            c ∈ l /\ Worker.walletAddress c = k.
Proof.
  intros (c & Hin & Hk). rewrite characterIndex_last.
  assert (Hf : c ∈ filter (fun c => Worker.walletAddress c = k) l)
    by (apply list_elem_of_filter; split; assumption).
  destruct (filter _ l) as [|a f] eqn:Hfl using rev_ind.
  - now apply not_elem_of_nil in Hf.
  - clear IHf. rewrite last_snoc. exists a. split; [reflexivity|].
    assert (Ha : a ∈ filter (fun c => Worker.walletAddress c = k) l)
      by (rewrite Hfl; apply elem_of_app; right; apply list_elem_of_here).
    apply list_elem_of_filter in Ha. tauto.
Qed.

(** X20: the layout is requested at most once: after a first call of
    [generateCharacterPositions] every later call, and every later
    [fetchData], with any data, returns the state as it is; where
    [window.Worker] is missing the first call only sets the flag, so no
    request is ever posted and [loading] stays as it was. *)
Theorem generate_once (windowWorker : bool) (data : list Worker.Holder)
    (st : Loader.State) :
  let st1 := Loader.generateCharacterPositions windowWorker data st in
  Loader.processedDataRef st1 = true /\
  (forall windowWorker' data',
     Loader.generateCharacterPositions windowWorker' data' st1 = st1) /\
  (forall windowWorker' response,
     Loader.fetchData windowWorker' response st1 = st1) /\
  (windowWorker = false ->
   Loader.workerRef st1 = Loader.workerRef st /\
   Loader.loading st1 = Loader.loading st /\
   Loader.plane st1 = Loader.plane st).
Proof.
  cbv zeta.
  assert (Hflag : Loader.processedDataRef
                    (Loader.generateCharacterPositions windowWorker data st)
                  = true).
  { unfold Loader.generateCharacterPositions.
    destruct (Loader.processedDataRef st) eqn:Hp; [exact Hp|].
    now destruct windowWorker. }
  split; [exact Hflag|]. split; [|split].
  - intros w' d'. unfold Loader.generateCharacterPositions at 1.
    now rewrite Hflag.
  - intros w' r. unfold Loader.fetchData. now rewrite Hflag.
  - intros ->. unfold Loader.generateCharacterPositions.
    destruct (Loader.processedDataRef st); repeat split.
Qed.

(** X21: from the initial state, a successful fetch followed by the
    answer of the worker ends the loading, releases the worker and stores
    one character per holder; a search for the owner of any holder then
    requests an animation towards a character of that owner, and a
    search for any other string raises the not-found alert. *)
Theorem load_then_search (isMobile : bool) (holders : list Loader.ApiHolder) :
  let st1 := Loader.fetchData true (Some holders)
               (Loader.initialState isMobile) in
  exists st2,
    Loader.workerAnswers st1 = Some st2 /\
    Loader.loading st2 = false /\
    Loader.workerRef st2 = None /\
    length (Plane.characterPositions (Loader.plane st2)) = length holders /\
    (forall input,
       let p := Loader.setSearchInput input (Loader.plane st2) in
       ((exists holder, holder ∈ holders /\ Loader.owner holder = input) ->
        exists c,
          c ∈ Plane.characterPositions (Loader.plane st2) /\
          Worker.walletAddress c = input /\
          Plane.handleSearch p =
            (p, [Plane.Animate (Plane.viewBox p)
                   {| Plane.x := - Worker.x c - 100;
                      Plane.y := - Worker.y c - 50;
                      Plane.scale := 1 |}])) /\
       ((forall holder, holder ∈ holders -> Loader.owner holder <> input) ->
        Plane.handleSearch p = (p, [Plane.Alert "Character not found"]))).
Proof.
  cbv zeta.
  set (data := map (fun holder => {| Worker.holderID := Loader.owner holder;
                                     Worker.size := Loader.normalizedSize holder |})
                   holders).
  destruct (onmessage_posts data) as (ps & Hmsg & Hlen & Hnth).
  unfold Loader.fetchData, Loader.generateCharacterPositions,
    Loader.workerAnswers.
  cbn [Loader.initialState Loader.processedDataRef Loader.workerRef
       Loader.request Loader.loading Loader.plane].
  fold data. rewrite Hmsg. cbn [mbind option_bind fold_left].
  unfold Loader.onWorkerMessage.
  cbn [Loader.workerRef Loader.terminated Worker.isComplete
       Worker.positions Loader.processedDataRef Loader.plane].
  eexists. split; [reflexivity|].
  cbn [Loader.loading Loader.workerRef Loader.plane
       Loader.setCharacterPositions Plane.characterPositions].
  split; [reflexivity|]. split; [reflexivity|].
  split; [rewrite Hlen; unfold data; apply length_map|].
  assert (Hwallet : forall c,
            c ∈ ps ->
            exists holder, holder ∈ holders /\
                           Worker.walletAddress c = Loader.owner holder).
  { intros c Hc. apply list_elem_of_lookup in Hc. destruct Hc as [i Hi].
    assert (Hlt : (i < length data)%nat)
      by (rewrite <- Hlen; now apply lookup_lt_Some in Hi).
    destruct (lookup_lt_is_Some_2 data i Hlt) as [item Hitem].
    destruct (Hnth i item Hitem) as (p & Hp & Hplace).
    rewrite Hi in Hp. apply (inj Some) in Hp. subst p.
    destruct (placeEntity_Some (length data) i item) as (a & r & _ & Hpl);
      [lia|].
    rewrite Hpl in Hplace. apply (inj Some) in Hplace. subst c.
    unfold data in Hitem. rewrite list_lookup_fmap in Hitem.
    destruct (holders !! i) as [holder|] eqn:Hh; [|discriminate].
    apply (inj Some) in Hitem. subst item.
    exists holder. split; [|reflexivity].
    apply list_elem_of_lookup. eauto. }
  intros input. split.
  - intros (holder & Hin & Howner).
    apply list_elem_of_lookup in Hin. destruct Hin as [i Hi].
    set (item := {| Worker.holderID := Loader.owner holder;
                    Worker.size := Loader.normalizedSize holder |}).
    assert (Hitem : data !! i = Some item).
    { unfold data. rewrite list_lookup_fmap, Hi. reflexivity. }
    destruct (Hnth i item Hitem) as (p & Hp & Hplace).
    assert (Hn : (0 < length data)%nat)
      by (apply lookup_lt_Some in Hitem; lia).
    destruct (placeEntity_Some (length data) i item Hn)
      as (a & r & _ & Hpl).
    rewrite Hpl in Hplace. apply (inj Some) in Hplace.
    destruct (characterIndex_hit ps input) as (c & Hc & Hcin & Hck).
    { exists p. split; [apply list_elem_of_lookup; eauto|].
      subst p. exact Howner. }
    exists c. split; [exact Hcin|]. split; [exact Hck|].
    unfold Plane.handleSearch.
    cbn [Loader.setSearchInput Loader.setCharacterPositions
         Plane.characterPositions Plane.searchInput].
    rewrite Hc. reflexivity.
  - intros Hmiss. unfold Plane.handleSearch.
    cbn [Loader.setSearchInput Loader.setCharacterPositions
         Plane.characterPositions Plane.searchInput].
    unfold Plane.characterIndex. rewrite characterIndex_miss.
    + rewrite lookup_empty. reflexivity.
    + intros c Hc Hk. destruct (Hwallet c Hc) as (holder & Hin & Hw).
      apply (Hmiss holder Hin). congruence.
Qed.

Lemma load_then_search_witness :
  let holders := [ {| Loader.owner := "A"; Loader.normalizedSize := 1 |} ] in
  exists st2,
    Loader.workerAnswers
      (Loader.fetchData true (Some holders) (Loader.initialState false))
    = Some st2 /\
    Loader.loading st2 = false /\
    length (Plane.characterPositions (Loader.plane st2)) = 1%nat.
Proof.
  intros holders.
  destruct (load_then_search false holders)
    as (st2 & H1 & H2 & _ & H3 & _).
  exists st2. repeat split; assumption.
Defined.

(** ** The holders API *)

Section Holders.

Import Api.

Lemma ownerTotal_nonneg k accounts : (0 <= ownerTotal k accounts)%Z.
Proof.
  induction accounts as [|a accounts IH]; cbn [ownerTotal foldr]; [lia|].
  fold (ownerTotal k accounts).
  destruct (String.eqb _ _); cbn [andb]; [|exact IH].
  destruct (Z.ltb_spec 0 (accountAmount a)); lia.
Qed.

Lemma ownerTotal_snoc k accounts a :
  ownerTotal k (accounts ++ [a]) =
  (ownerTotal k accounts +
   if String.eqb (accountOwner a) k && (0 <? accountAmount a)%Z
   then accountAmount a else 0)%Z.
Proof.
  induction accounts as [|b accounts IH].
  - cbn. destruct (_ && _); lia.
  - cbn [app ownerTotal foldr]. fold (ownerTotal k (accounts ++ [a])).
    fold (ownerTotal k accounts). rewrite IH.
    destruct (String.eqb (accountOwner b) k && _); lia.
Qed.

Lemma mapGet_None k m : mapGet k m = None <-> k ∉ m.*1.
Proof.
  induction m as [|[k' v] m IH]; cbn [mapGet fmap list_fmap fst].
  - split; [intros _; apply not_elem_of_nil|reflexivity].
  - destruct (String.eqb_spec k' k) as [->|Hne].
    + split; [discriminate|]. intros H. destruct H. apply list_elem_of_here.
    + rewrite IH, not_elem_of_cons. split; [intros H; split; congruence|tauto].
Qed.

Lemma mapGet_mapSet k v m k' :
  mapGet k' (mapSet k v m) = if String.eqb k k' then Some v else mapGet k' m.
Proof.
  induction m as [|[k0 v0] m IH]; cbn [mapSet mapGet].
  - reflexivity.
  - destruct (String.eqb_spec k0 k) as [->|Hne]; cbn [mapGet].
    + destruct (String.eqb k k'); reflexivity.
    + rewrite IH. destruct (String.eqb_spec k0 k') as [->|Hne'].
      * destruct (String.eqb_spec k k'); [congruence|reflexivity].
      * reflexivity.
Qed.

Lemma mapSet_keys k v m :
  (mapSet k v m).*1 =
  match mapGet k m with Some _ => m.*1 | None => m.*1 ++ [k] end.
Proof.
  induction m as [|[k0 v0] m IH]; cbn [mapSet mapGet]; [reflexivity|].
  destruct (String.eqb_spec k0 k) as [->|Hne].
  - reflexivity.
  - cbn [fmap list_fmap fst]. fold (fmap (M:=list) (@fst string Z)).
    rewrite IH. now destruct (mapGet k m).
Qed.

Lemma mapSet_NoDup k v m : NoDup m.*1 -> NoDup (mapSet k v m).*1.
Proof.
  intros Hnd. rewrite mapSet_keys.
  destruct (mapGet k m) eqn:Hk; [assumption|].
  apply NoDup_app. split; [assumption|]. split.
  - intros x Hx Hx'. apply list_elem_of_singleton in Hx'. subst x.
    now apply mapGet_None in Hk.
  - apply NoDup_singleton.
Qed.

Lemma mapGet_elem k v m : NoDup m.*1 -> mapGet k m = Some v <-> (k, v) ∈ m.
Proof.
  induction m as [|[k0 v0] m IH]; intros Hnd; cbn [mapGet].
  - split; [discriminate|]. intros H. now apply not_elem_of_nil in H.
  - cbn [fmap list_fmap fst] in Hnd. apply NoDup_cons in Hnd.
    destruct Hnd as [Hk0 Hnd]. rewrite elem_of_cons.
    destruct (String.eqb_spec k0 k) as [->|Hne].
    + split; [intros [= ->]; now left|].
      intros [[= ->]|Hin]; [reflexivity|]. exfalso. apply Hk0.
      apply list_elem_of_fmap. exists (k, v). split; [reflexivity|assumption].
    + rewrite IH by assumption. split; [tauto|].
      intros [[= -> ->]|Hin]; [contradiction|assumption].
Qed.

(** The map after the accounts read so far: one entry per owner with a
    positive total, holding that total. *)
Lemma aggregate_totals accounts :
  NoDup (aggregate accounts).*1 /\
  forall k,
    mapGet k (aggregate accounts) =
    if (0 <? ownerTotal k accounts)%Z then Some (ownerTotal k accounts)
    else None.
Proof.
  unfold aggregate.
  induction accounts as [|a accounts [IHnd IHget]] using rev_ind.
  - split; [constructor|]. intros k. reflexivity.
  - rewrite fold_left_app. cbn [fold_left].
    set (m := fold_left addAccount accounts []) in *.
    unfold addAccount. cbv zeta.
    destruct (Z.ltb_spec 0 (accountAmount a)) as [Hpos|Hle].
    + split; [now apply mapSet_NoDup|].
      intros k. rewrite mapGet_mapSet, ownerTotal_snoc.
      pose proof (ownerTotal_nonneg (accountOwner a) accounts) as H0.
      pose proof (ownerTotal_nonneg k accounts) as Hk.
      destruct (String.eqb_spec (accountOwner a) k) as [<-|Hne];
        cbn [andb].
      * rewrite IHget.
        destruct (Z.ltb_spec 0 (ownerTotal (accountOwner a) accounts));
          cbn [default].
        -- destruct (Z.ltb_spec 0 (accountAmount a)); [|lia].
           destruct (Z.ltb_spec 0 (ownerTotal (accountOwner a) accounts
                                   + accountAmount a)); [|lia].
           reflexivity.
        -- destruct (Z.ltb_spec 0 (accountAmount a)); [|lia].
           destruct (Z.ltb_spec 0 (ownerTotal (accountOwner a) accounts
                                   + accountAmount a)); [|lia].
           f_equal. lia.
      * rewrite IHget, Z.add_0_r. reflexivity.
    + split; [assumption|]. intros k. rewrite ownerTotal_snoc, IHget.
      destruct (Z.ltb_spec 0 (accountAmount a)); [lia|].
      rewrite andb_false_r, Z.add_0_r. reflexivity.
Qed.

Lemma insertEntry_perm a l : insertEntry a l ≡ₚ a :: l.
Proof.
  induction l as [|b l IH]; cbn [insertEntry]; [reflexivity|].
  destruct (_ <=? _)%Z; [reflexivity|].
  rewrite IH. apply perm_swap.
Qed.

Lemma sortEntries_perm l : sortEntries l ≡ₚ l.
Proof.
  induction l as [|a l IH]; cbn [sortEntries foldr]; [reflexivity|].
  fold (sortEntries l). now rewrite insertEntry_perm, IH.
Qed.

Lemma insertEntry_sorted a l :
  StronglySorted byAmount l -> StronglySorted byAmount (insertEntry a l).
Proof.
  induction l as [|b l IH]; intros Hs; cbn [insertEntry].
  - repeat constructor.
  - apply StronglySorted_inv in Hs. destruct Hs as [Hl Hb].
    destruct (Z.leb_spec (entryAmount b) (entryAmount a)) as [Hle|Hgt].
    + constructor; [now constructor|]. constructor; [exact Hle|].
      eapply Forall_impl; [exact Hb|]. intros c Hc. unfold byAmount in *. lia.
    + constructor; [now apply IH|].
      rewrite insertEntry_perm. constructor; [|assumption].
      unfold byAmount. lia.
Qed.

Lemma sortEntries_sorted l : StronglySorted byAmount (sortEntries l).
Proof.
  induction l as [|a l IH]; cbn [sortEntries foldr]; [constructor|].
  now apply insertEntry_sorted.
Qed.

Lemma StronglySorted_take {A} (R : A -> A -> Prop) n l :
  StronglySorted R l -> StronglySorted R (take n l).
Proof.
  revert n. induction l as [|a l IH]; intros [|n] Hs; cbn [take];
    try constructor.
  - apply IH. now apply StronglySorted_inv in Hs.
  - apply StronglySorted_inv in Hs. destruct Hs as [_ Ha].
    apply Forall_take. exact Ha.
Qed.

Lemma map_from_total {A B} (f : nat -> A -> option B) (g : A -> B) l :
  forall start,
    (forall i x, x ∈ l -> f i x = Some (g x)) ->
    Worker.map_from f start l = Some (g <$> l).
Proof.
  induction l as [|a l IH]; intros start Hf; [reflexivity|].
  cbn [Worker.map_from]. rewrite (Hf start a) by apply list_elem_of_here.
  cbn [mbind option_bind]. rewrite IH; [reflexivity|].
  intros i x Hx. apply Hf. now apply list_elem_of_further.
Qed.

Lemma StronglySorted_fmap {A B} (R1 : A -> A -> Prop) (R2 : B -> B -> Prop)
    (g : A -> B) l :
  (forall a b, a ∈ l -> b ∈ l -> R1 a b -> R2 (g a) (g b)) ->
  StronglySorted R1 l -> StronglySorted R2 (g <$> l).
Proof.
  induction l as [|a l IH]; intros Hg Hs; [constructor|].
  apply StronglySorted_inv in Hs. destruct Hs as [Hl Ha].
  cbn [fmap list_fmap]. constructor.
  - apply IH; [|assumption]. intros x y Hx Hy. apply Hg; now right.
  - apply Forall_fmap. rewrite Forall_forall in Ha |- *.
    intros b Hb. apply Hg; [apply list_elem_of_here|now right|].
    now apply Ha.
Qed.

(** The sorted entries: one per owner with a positive total, holding
    that total, by decreasing amount. *)
Lemma sorted_entries accounts :
  let sorted := sortEntries (toEntry <$> aggregate accounts) in
  NoDup (entryOwner <$> sorted) /\
  StronglySorted byAmount sorted /\
  (forall e, e ∈ sorted ->
     (0 < entryAmount e)%Z /\
     entryAmount e = ownerTotal (entryOwner e) accounts) /\
  (forall k, (0 < ownerTotal k accounts)%Z ->
     exists e, e ∈ sorted /\ entryOwner e = k).
Proof.
  intros sorted.
  destruct (aggregate_totals accounts) as [Hnd Hget].
  assert (Hperm : sorted ≡ₚ toEntry <$> aggregate accounts)
    by apply sortEntries_perm.
  split; [|split; [apply sortEntries_sorted|split]].
  - rewrite Hperm, <- list_fmap_compose.
    replace (entryOwner ∘ toEntry) with (@fst string Z); [exact Hnd|].
    reflexivity.
  - intros e He. rewrite Hperm in He. apply list_elem_of_fmap in He.
    destruct He as ([k v] & -> & Hin). cbn [toEntry entryAmount entryOwner fst snd].
    apply mapGet_elem in Hin; [|assumption]. rewrite Hget in Hin.
    destruct (Z.ltb_spec 0 (ownerTotal k accounts)); [|discriminate].
    injection Hin as <-. split; [assumption|reflexivity].
  - intros k Hk. specialize (Hget k).
    destruct (Z.ltb_spec 0 (ownerTotal k accounts)); [|lia].
    apply mapGet_elem in Hget; [|assumption].
    exists (toEntry (k, ownerTotal k accounts)). split; [|reflexivity].
    rewrite Hperm. apply list_elem_of_fmap. eauto.
Qed.

(** The response: the entries after the first, at most 1000 of them, each
    normalized by the amount of the first one kept. *)
Lemma holders_normalized_entries accounts :
  let array :=
    take MAX_HOLDERS
      (drop 1 (sortEntries (toEntry <$> aggregate accounts))) in
  holders accounts =
  Some (normalized (from_option entryAmount 1%Z (head array)) <$> array).
Proof.
  intros array. unfold holders. cbv zeta.
  change (take MAX_HOLDERS
            (drop 1 (sortEntries (map toEntry (aggregate accounts)))))
    with array.
  apply map_from_total. intros _ e He. unfold normalizeHolder.
  destruct array as [|first rest] eqn:Harr;
    [now apply not_elem_of_nil in He|].
  cbn [head mbind option_bind from_option].
  assert (Hin : first ∈ sortEntries (toEntry <$> aggregate accounts)).
  { assert (H : first ∈ array) by (rewrite Harr; apply list_elem_of_here).
    unfold array in H. apply elem_of_take in H. destruct H as (i & H & _).
    rewrite lookup_drop in H. apply list_elem_of_lookup. eauto. }
  destruct (sorted_entries accounts) as (_ & _ & Hpos & _).
  destruct (Hpos first Hin) as [Hfirst _].
  rewrite js_div_Some; [reflexivity|].
  apply not_0_IZR. lia.
Qed.

End Holders.

(** X22: the sizes the API returns are normalized: at most 1000 holders
    are returned, each with a size in (0, 1], by decreasing size, and the
    first one has size exactly 1; no division by zero occurs, whatever the
    accounts. *)
Theorem holders_normalized (accounts : list Api.TokenAccount) :
  exists hs,
    Api.holders accounts = Some hs /\
    (length hs <= 1000)%nat /\
    Forall (fun h => 0 < Api.normalizedSize h <= 1) hs /\
    (forall h, head hs = Some h -> Api.normalizedSize h = 1) /\
    StronglySorted
      (fun a b => Api.normalizedSize b <= Api.normalizedSize a) hs.
Proof.
  rewrite holders_normalized_entries. cbv zeta.
  destruct (sorted_entries accounts) as (_ & Hsorted & Hpos & _).
  cbv zeta in Hsorted, Hpos.
  set (sorted := Api.sortEntries _) in *.
  set (array := take Api.MAX_HOLDERS (drop 1 sorted)).
  assert (Hsub : forall e, e ∈ array -> e ∈ sorted).
  { intros e He. unfold array in He. apply elem_of_take in He.
    destruct He as (i & He & _). rewrite lookup_drop in He.
    apply list_elem_of_lookup. eauto. }
  assert (Harr : StronglySorted Api.byAmount array).
  { apply StronglySorted_take. destruct sorted as [|a l]; [constructor|].
    cbn [drop]. now apply StronglySorted_inv in Hsorted. }
  eexists. split; [reflexivity|].
  split; [rewrite length_fmap; apply firstn_le_length|].
  destruct array as [|first rest] eqn:Ha.
  { cbn. split; [constructor|]. split; [discriminate|constructor]. }
  cbn [head from_option].
  assert (Hfirst : (0 < Api.entryAmount first)%Z).
  { apply Hpos, Hsub. apply list_elem_of_here. }
  assert (HM : 0 < IZR (Api.entryAmount first)) by now apply IZR_lt.
  assert (Hle : forall e, e ∈ first :: rest ->
                  (0 < Api.entryAmount e <= Api.entryAmount first)%Z).
  { intros e He. split; [now apply Hpos, Hsub|].
    apply elem_of_cons in He. destruct He as [->|He]; [lia|].
    apply StronglySorted_inv in Harr. destruct Harr as [_ Hall].
    rewrite Forall_forall in Hall. now apply Hall. }
  split; [|split].
  - apply Forall_fmap, Forall_forall. intros e He.
    destruct (Hle e He) as [H0 H1]. apply IZR_lt in H0. apply IZR_le in H1.
    cbv [compose Api.normalized Api.normalizedSize]. split.
    + now apply Rdiv_lt_0_compat.
    + apply Rmult_le_reg_r with (IZR (Api.entryAmount first)); [assumption|].
      unfold Rdiv. rewrite Rmult_assoc, Rinv_l by lra. lra.
  - cbn [fmap list_fmap head]. intros h [= <-].
    cbv [Api.normalized Api.normalizedSize]. unfold Rdiv.
    apply Rinv_r. lra.
  - apply StronglySorted_fmap with (R1 := Api.byAmount); [|exact Harr].
    intros a b _ _ Hab. cbv [Api.normalized Api.normalizedSize].
    unfold Api.byAmount in Hab. apply IZR_le in Hab.
    unfold Rdiv. apply Rmult_le_compat_r; [|assumption].
    apply Rlt_le, Rinv_0_lt_compat, HM.
Qed.

(** X23: the API returns each owner at most once, with the sum of the
    positive amounts of its accounts, which is positive; when some
    account has a positive amount, an owner with the largest such sum is
    left out of the response. *)
Theorem holders_owners (accounts : list Api.TokenAccount) :
  exists hs,
    Api.holders accounts = Some hs /\
    NoDup (Api.owner <$> hs) /\
    Forall (fun h => (0 < Api.amount h)%Z /\
                     Api.amount h = Api.ownerTotal (Api.owner h) accounts)
           hs /\
    ((exists a, a ∈ accounts /\ (0 < Api.accountAmount a)%Z) ->
     exists top,
       (0 < Api.ownerTotal top accounts)%Z /\
       (forall k, (Api.ownerTotal k accounts
                   <= Api.ownerTotal top accounts)%Z) /\
       top ∉ Api.owner <$> hs).
Proof.
  rewrite holders_normalized_entries. cbv zeta.
  destruct (sorted_entries accounts) as (Hnd & Hsorted & Hpos & Hall).
  cbv zeta in Hnd, Hsorted, Hpos, Hall.
  set (sorted := Api.sortEntries _) in *.
  set (array := take Api.MAX_HOLDERS (drop 1 sorted)).
  set (g := Api.normalized _).
  assert (Howners : Api.owner <$> (g <$> array) = Api.entryOwner <$> array).
  { rewrite <- list_fmap_compose. reflexivity. }
  assert (Hsublist : array `sublist_of` sorted).
  { unfold array. etransitivity; [apply sublist_take|apply sublist_drop]. }
  eexists. split; [reflexivity|]. split; [|split].
  - rewrite Howners. eapply sublist_NoDup; [exact Hnd|].
    now apply fmap_sublist.
  - apply Forall_fmap, Forall_forall. intros e He.
    unfold g. cbv [compose Api.normalized Api.amount Api.owner]. apply Hpos.
    now apply (elem_of_sublist array sorted).
  - intros (a & Ha & Hapos).
    assert (Htotal : (0 < Api.ownerTotal (Api.accountOwner a) accounts)%Z).
    { clear -Ha Hapos. induction accounts as [|b accounts IH];
        [now apply not_elem_of_nil in Ha|].
      cbn [Api.ownerTotal foldr]. fold (Api.ownerTotal (Api.accountOwner a) accounts).
      pose proof (ownerTotal_nonneg (Api.accountOwner a) accounts).
      apply elem_of_cons in Ha. destruct Ha as [->|Ha].
      - rewrite String.eqb_refl. cbn [andb].
        destruct (Z.ltb_spec 0 (Api.accountAmount b)); lia.
      - specialize (IH Ha). destruct (_ && _) eqn:Hc; [|assumption].
        apply andb_true_iff in Hc. destruct Hc as [_ Hc].
        apply Z.ltb_lt in Hc. lia. }
    destruct (Hall _ Htotal) as (e0 & He0 & _).
    destruct sorted as [|top rest] eqn:Hs;
      [now apply not_elem_of_nil in He0|].
    destruct (Hpos top (list_elem_of_here _ _)) as [Htop Htoptotal].
    exists (Api.entryOwner top). split; [lia|]. split.
    + intros k.
      destruct (Z.ltb_spec 0 (Api.ownerTotal k accounts)) as [Hk|Hk]; [|lia].
      destruct (Hall k Hk) as (e & He & <-).
      destruct (Hpos e He) as [_ <-]. rewrite <- Htoptotal.
      apply elem_of_cons in He. destruct He as [->|He]; [lia|].
      apply StronglySorted_inv in Hsorted. destruct Hsorted as [_ Hf].
      rewrite Forall_forall in Hf. now apply Hf.
    + rewrite Howners. cbn [fmap list_fmap] in Hnd.
      apply NoDup_cons in Hnd. destruct Hnd as [Hnotin _].
      intros Hin. apply Hnotin.
      assert (Hsub2 : array `sublist_of` rest)
        by (unfold array; cbn [drop]; apply sublist_take).
      eapply elem_of_sublist; [exact Hin|]. now apply fmap_sublist.
Qed.

Lemma holders_owners_witness :
  let accounts := [ {| Api.accountOwner := "P"; Api.accountAmount := 9 |};
                    {| Api.accountOwner := "A"; Api.accountAmount := 2 |} ] in
  exists hs,
    Api.holders accounts = Some hs /\ NoDup (Api.owner <$> hs) /\
    exists top,
      (0 < Api.ownerTotal top accounts)%Z /\ top ∉ Api.owner <$> hs.
Proof.
  intros accounts.
  destruct (holders_owners accounts) as (hs & H1 & H2 & _ & H3).
  destruct H3 as (top & Htop & _ & Hnot).
  { exists {| Api.accountOwner := "P"; Api.accountAmount := 9 |}.
    split; [apply list_elem_of_here|reflexivity]. }
  exists hs. split; [exact H1|]. split; [exact H2|].
  exists top. split; assumption.
Defined.

(** ** Styles of the SVG components *)

Section Styles.

Import Svgs.

Lemma toUpper_not_lower c : isLower c = true -> isLower (toUpper c) = false.
Proof.
  intros Hc. unfold toUpper. rewrite Hc. unfold isLower in *.
  pose proof (N_ascii_bounded c) as Hb.
  apply andb_true_iff in Hc. destruct Hc as [H1 H2].
  apply N.leb_le in H1. apply N.leb_le in H2.
  rewrite N_ascii_embedding by lia.
  apply andb_false_iff. left. apply N.leb_gt. lia.
Qed.

Lemma hyphen_not_lower : isLower "-" = false.
Proof. reflexivity. Qed.

(** The result starts with a lower-case letter only if the argument
    does, and holds no hyphen followed by a lower-case letter. *)
Lemma toCamelCase_clean n : forall s,
  (String.length s <= n)%nat ->
  (headLower (toCamelCase s) = true -> headLower s = true) /\
  hasHyphenLower (toCamelCase s) = false.
Proof.
  induction n as [|n IH]; intros s Hlen.
  - destruct s; [split; [discriminate|reflexivity]|cbn in Hlen; lia].
  - destruct s as [|c rest]; [split; [discriminate|reflexivity]|].
    cbn [String.length] in Hlen.
    assert (Hrest : (String.length rest <= n)%nat) by lia.
    destruct (IH rest Hrest) as [Hhead Hclean].
    cbn [toCamelCase].
    destruct (Ascii.eqb_spec c "-") as [->|Hc].
    + destruct rest as [|d rest'].
      * split; [discriminate|reflexivity].
      * destruct (isLower d) eqn:Hd.
        -- cbn [String.length] in Hrest.
           destruct (IH rest' ltac:(lia)) as [Hhead' Hclean'].
           split.
           ++ cbn [headLower]. now rewrite toUpper_not_lower.
           ++ cbn [hasHyphenLower].
              destruct (toCamelCase rest') as [|e t] eqn:Ht; [reflexivity|].
              rewrite Hclean', orb_false_r.
              destruct (Ascii.eqb_spec (toUpper d) "-") as [He|_];
                [|reflexivity].
              cbn [andb]. destruct (isLower e) eqn:He'; [|reflexivity].
              (* the letter in upper case is not a hyphen *)
              exfalso. unfold toUpper in He. rewrite Hd in He.
              unfold isLower in Hd. apply andb_true_iff in Hd.
              destruct Hd as [H1 H2]. apply N.leb_le in H1, H2.
              apply (f_equal N_of_ascii) in He.
              rewrite N_ascii_embedding in He by lia. cbn in He. lia.
        -- split; [cbn [headLower]; now rewrite hyphen_not_lower|].
           cbn [hasHyphenLower].
           destruct (toCamelCase (String d rest')) as [|e t] eqn:Ht;
             [reflexivity|].
           rewrite Hclean, orb_false_r. cbn [Ascii.eqb andb].
           destruct (isLower e) eqn:He; [|reflexivity].
           cbn [headLower] in Hhead. rewrite Hhead in Hd by assumption.
           discriminate.
    + split; [cbn [headLower]; tauto|].
      cbn [hasHyphenLower].
      destruct (toCamelCase rest) as [|e t] eqn:Ht; [reflexivity|].
      rewrite Hclean, orb_false_r.
      destruct (Ascii.eqb_spec c "-"); [contradiction|reflexivity].
Qed.

Lemma toCamelCase_fixed n : forall s,
  (String.length s <= n)%nat ->
  hasHyphenLower s = false -> toCamelCase s = s.
Proof.
  induction n as [|n IH]; intros s Hlen Hs.
  - destruct s; [reflexivity|cbn in Hlen; lia].
  - destruct s as [|c rest]; [reflexivity|].
    cbn [String.length] in Hlen. cbn [toCamelCase].
    destruct rest as [|d rest'].
    + now destruct (Ascii.eqb c "-").
    + cbn [hasHyphenLower] in Hs. apply orb_false_iff in Hs.
      destruct Hs as [Hcd Hrest].
      assert (Hfix : toCamelCase (String d rest') = String d rest')
        by (apply IH; [cbn [String.length] in *; lia|exact Hrest]).
      destruct (Ascii.eqb c "-"); cbn [andb] in Hcd.
      * rewrite Hcd. now rewrite Hfix.
      * now rewrite Hfix.
Qed.

Lemma toCamelCase_length n : forall s,
  (String.length s <= n)%nat ->
  (String.length (toCamelCase s) <= String.length s)%nat.
Proof.
  induction n as [|n IH]; intros s Hlen.
  - destruct s; [cbn; lia|cbn in Hlen; lia].
  - destruct s as [|c rest]; [cbn; lia|].
    cbn [String.length] in Hlen. cbn [toCamelCase].
    pose proof (IH rest ltac:(lia)) as Hrest.
    destruct (Ascii.eqb c "-").
    + destruct rest as [|d rest']; [cbn; lia|].
      destruct (isLower d).
      * cbn [String.length] in *. pose proof (IH rest' ltac:(lia)). lia.
      * cbn [String.length] in *. lia.
    + cbn [String.length]. lia.
Qed.

End Styles.

(** X24: [toCamelCase] leaves no hyphen followed by a lower-case letter,
    so applying it twice is applying it once; it returns a string without
    such a pair as it is, and never lengthens a string. *)
Theorem toCamelCase_normal (str : string) :
  Svgs.hasHyphenLower (Svgs.toCamelCase str) = false /\
  Svgs.toCamelCase (Svgs.toCamelCase str) = Svgs.toCamelCase str /\
  (Svgs.hasHyphenLower str = false -> Svgs.toCamelCase str = str) /\
  (String.length (Svgs.toCamelCase str) <= String.length str)%nat.
Proof.
  assert (Hclean : Svgs.hasHyphenLower (Svgs.toCamelCase str) = false)
    by (apply (toCamelCase_clean (String.length str)); lia).
  split; [exact Hclean|]. split; [|split].
  - apply (toCamelCase_fixed (String.length (Svgs.toCamelCase str)));
      [lia|exact Hclean].
  - apply (toCamelCase_fixed (String.length str)). lia.
  - apply (toCamelCase_length (String.length str)). lia.
Qed.

Section StyleObject.

Import Svgs.

Lemma addDeclaration_clean acc style acc' :
  cleanStyles acc -> addDeclaration acc style = Some acc' -> cleanStyles acc'.
Proof.
  intros Hacc. unfold addDeclaration.
  destruct (map trim (split ":" style)) as [|property [|value pieces]];
    try discriminate.
  destruct (String.eqb (toCamelCase property) "fill" && String.eqb value "#aaaaaa"
            || String.prefix "url(" value) eqn:Hcond;
    intros [= <-]; intros k v Hk.
  - destruct (decide (toCamelCase property = k)) as [<-|Hne].
    + rewrite lookup_insert_eq in Hk. injection Hk as <-.
      split; [reflexivity|]. intros [_ H]. discriminate H.
    + rewrite lookup_insert_ne in Hk by assumption. now apply Hacc.
  - destruct (decide (toCamelCase property = k)) as [<-|Hne].
    + rewrite lookup_insert_eq in Hk. injection Hk as <-.
      apply orb_false_iff in Hcond. destruct Hcond as [Hfill Hurl].
      split; [exact Hurl|]. intros [Hp ->]. rewrite Hp in Hfill.
      discriminate Hfill.
    + rewrite lookup_insert_ne in Hk by assumption. now apply Hacc.
Qed.

Lemma fold_declarations_None styles :
  fold_left (fun acc style => acc ← acc; addDeclaration acc style)
            styles None = None.
Proof. induction styles as [|style styles IH]; [reflexivity|exact IH]. Qed.

Lemma fold_declarations_clean styles : forall acc result,
  cleanStyles acc ->
  fold_left (fun acc style => acc ← acc; addDeclaration acc style)
            styles (Some acc) = Some result ->
  cleanStyles result.
Proof.
  induction styles as [|style styles IH]; intros acc result Hacc.
  - cbn [fold_left]. intros [= <-]. exact Hacc.
  - cbn [fold_left mbind option_bind].
    destruct (addDeclaration acc style) as [acc'|] eqn:Hstep.
    + apply IH. now apply (addDeclaration_clean acc style).
    + now rewrite fold_declarations_None.
Qed.

Lemma fold_declarations_throw styles style : forall init,
  style ∈ styles ->
  (forall acc, addDeclaration acc style = None) ->
  fold_left (fun acc style => acc ← acc; addDeclaration acc style)
            styles init = None.
Proof.
  induction styles as [|s styles IH]; intros init Hin Hthrow.
  - now apply not_elem_of_nil in Hin.
  - cbn [fold_left]. apply elem_of_cons in Hin. destruct Hin as [<-|Hin].
    + destruct init as [acc|]; cbn [mbind option_bind];
        [rewrite Hthrow|]; apply fold_declarations_None.
    + now apply IH.
Qed.

Lemma split_no_separator sep s : contains sep s = false -> split sep s = [s].
Proof.
  induction s as [|c s IH]; [reflexivity|]. cbn [contains split].
  destruct (Ascii.eqb c sep); [discriminate|]. cbn [orb].
  intros Hs. now rewrite IH.
Qed.

End StyleObject.

(** X25: in the style object that [transformSvgStyle] returns the
    overrides win; what comes from the style string never holds a value
    that starts with [url(] (under any property, as the condition is
    written) nor the grey fill [#aaaaaa]; without a style string, or with
    an empty one, the overrides are returned as they are. *)
Theorem transformSvgStyle_result (styleString : option string)
    (overrideStyles result : gmap string string) :
  Svgs.transformSvgStyle styleString overrideStyles = Some result ->
  (forall k v, overrideStyles !! k = Some v -> result !! k = Some v) /\
  (forall k v,
     result !! k = Some v ->
     overrideStyles !! k = None ->
     String.prefix "url(" v = false /\
     ~ (k = "fill"%string /\ v = "#aaaaaa"%string)) /\
  (styleString = None \/ styleString = Some EmptyString ->
   result = overrideStyles).
Proof.
  intros Hresult.
  assert (Hcases :
            result = overrideStyles \/
            exists base, Svgs.cleanStyles base /\
                         result = overrideStyles ∪ base).
  { unfold Svgs.transformSvgStyle in Hresult.
    destruct styleString as [[|c s]|]; [left; congruence| |left; congruence].
    right.
    destruct (fold_left _ _ _) as [base|] eqn:Hfold; [|discriminate].
    exists base. split; [|cbn in Hresult; congruence].
    eapply fold_declarations_clean; [|exact Hfold].
    intros k v Hk. now rewrite lookup_empty in Hk. }
  split; [|split].
  - intros k v Hk. destruct Hcases as [->|(base & _ & ->)]; [exact Hk|].
    apply lookup_union_Some_raw. now left.
  - intros k v Hk Hnone. destruct Hcases as [->|(base & Hbase & ->)].
    + congruence.
    + apply lookup_union_Some_raw in Hk.
      destruct Hk as [Hk|[_ Hk]]; [congruence|]. now apply Hbase.
  - intros [->| ->]; cbn in Hresult; congruence.
Qed.

Lemma transformSvgStyle_result_witness :
  exists result,
    Svgs.transformSvgStyle (Some "fill:#aaaaaa") ∅ = Some result /\
    forall k v,
      result !! k = Some v ->
      ~ (k = "fill"%string /\ v = "#aaaaaa"%string).
Proof.
  exists (<["fill"%string := "currentColor"%string]> ∅ : gmap string string).
  assert (Hrun : Svgs.transformSvgStyle (Some "fill:#aaaaaa") ∅ =
                 Some (<["fill"%string := "currentColor"%string]> ∅)).
  { unfold Svgs.transformSvgStyle.
    replace (Svgs.split ";" "fill:#aaaaaa") with ["fill:#aaaaaa"%string]
      by (vm_compute; reflexivity).
    rewrite filter_cons_True by (vm_compute; discriminate).
    rewrite filter_nil. cbn [fold_left mbind option_bind].
    unfold Svgs.addDeclaration.
    replace (map Svgs.trim (Svgs.split ":" "fill:#aaaaaa"))
      with ["fill"%string; "#aaaaaa"%string] by (vm_compute; reflexivity).
    replace (Svgs.toCamelCase "fill") with "fill"%string
      by (vm_compute; reflexivity).
    cbn [String.eqb Ascii.eqb Bool.eqb andb orb].
    cbn [mbind option_bind]. now rewrite (left_id_L ∅ (∪)). }
  split; [exact Hrun|].
  intros k v Hk.
  apply (proj1 (proj2 (transformSvgStyle_result _ _ _ Hrun)) k v Hk).
  apply lookup_empty.
Defined.

(** X26: a declaration without a colon makes [transformSvgStyle] throw:
    when one of the pieces between the semicolons is not blank and holds
    no colon, its value is [undefined] and [startsWith] fails on it,
    whatever the other declarations and the overrides. *)
Theorem transformSvgStyle_missing_colon (styleString style : string)
    (overrideStyles : gmap string string) :
  style ∈ Svgs.split ";" styleString ->
  Svgs.trim style <> EmptyString ->
  Svgs.contains ":" style = false ->
  Svgs.transformSvgStyle (Some styleString) overrideStyles = None.
Proof.
  intros Hin Hblank Hcolon. unfold Svgs.transformSvgStyle.
  destruct styleString as [|c s].
  { cbn [Svgs.split] in Hin. apply list_elem_of_singleton in Hin.
    subst style. now destruct Hblank. }
  rewrite (fold_declarations_throw _ style); [reflexivity| |].
  - apply list_elem_of_filter. split; assumption.
  - intros acc. unfold Svgs.addDeclaration.
    now rewrite split_no_separator.
Qed.

Lemma transformSvgStyle_missing_colon_witness :
  Svgs.transformSvgStyle (Some "fill:none;opacity") ∅ = None.
Proof.
  apply (transformSvgStyle_missing_colon "fill:none;opacity" "opacity").
  - replace (Svgs.split ";" "fill:none;opacity")
      with ["fill:none"%string; "opacity"%string] by (vm_compute; reflexivity).
    apply list_elem_of_further, list_elem_of_here.
  - vm_compute. discriminate.
  - vm_compute. reflexivity.
Defined.
